(** * InvoiceEscrow: a shallow embedding of the escrow contract

    The contract under study is [hardhat/contracts/InvoiceEscrow.sol].
    Its storage (the [invoices] mapping, [_invoiceCounter], the owner
    slot inherited from [Ownable]) and the contract's ETH balance form
    the [State] record; every external function is a Rocq function from
    a pre-state to a [Result], where [Reverted] stands for an EVM revert
    (all writes of the call are discarded).

    Conventions
    - [uint256] and [address] values are binary naturals ([N]); the only
      arithmetic the contract performs on a [uint256] is the checked
      increment [_invoiceCounter++], whose overflow panic is written out.
    - [mapping(uint256 => Invoice)] is a [gmap N Invoice] read through
      [invoices_at], which yields the all-zero struct for a key that was
      never written, as Solidity storage does.
    - [recipient.call{value: amount}] hands control to code the
      contract does not know.  That code is a [Callee]: it either makes
      the call fail, or accepts the ether and performs a list of calls
      back into the contract (re-entrancy), each of which may in turn
      pay out and be re-entered.
    - Calls to the non-payable functions carry no ether.
    - The Solidity parameter [invoiceId] is written [id], since
      [invoiceId] is the field of the [Invoice] record.

    The API server in front of the contract (its service class, its
    routes and its start script) is modelled on top of the contract's
    functions; see "The API server" below. *)

From Stdlib Require Import NArith String List Lia.
From stdpp Require Import gmap strings list.

Local Open Scope string_scope.
Local Open Scope list_scope.
Local Open Scope N_scope.

Abbreviation address := N (only parsing).
Abbreviation uint256 := N (only parsing).

(** [type(uint256).max] *)
Definition MAX_UINT256 : N := 2 ^ 256 - 1.

(** ** Data model *)

Inductive InvoiceStatus : Set :=
| CREATED
| FUNDED
| COMPLETED
| PAID
| CANCELLED.

Definition InvoiceStatus_eqb (a b : InvoiceStatus) : bool :=
  match a, b with
  | CREATED, CREATED | FUNDED, FUNDED | COMPLETED, COMPLETED
  | PAID, PAID | CANCELLED, CANCELLED => true
  | _, _ => false
  end.

Record Invoice := mkInvoice {
  invoiceId : uint256;
  client : address;
  freelancer : address;
  amount : uint256;
  description : string;
  status : InvoiceStatus
}.

(** The value of a storage slot of [invoices] that was never written. *)
Definition zeroInvoice : Invoice :=
  mkInvoice 0 0 0 0 "" CREATED.

Definition with_status (st : InvoiceStatus) (i : Invoice) : Invoice :=
  mkInvoice (invoiceId i) (client i) (freelancer i) (amount i) (description i) st.

Inductive Event :=
| InvoiceCreated (id : uint256) (client freelancer : address)
                 (amount : uint256) (description : string)
| InvoiceFunded (id : uint256) (amount : uint256)
| InvoiceCompleted (id : uint256)
| PaymentReleased (id : uint256) (freelancer : address) (amount : uint256)
| InvoiceCancelled (id : uint256)
| DisputeResolved (id : uint256) (action : string).

(** One execution of [recipient.call{value: amount}] that went
    through, tagged with the invoice it was made for. *)
Record Transfer := mkTransfer {
  forInvoice : uint256;
  recipient : address;
  value : uint256
}.

(** Contract storage, the contract's balance, and the two append-only
    records an observer of the chain sees: the event log and the ether
    the contract has sent out (oldest first). *)
Record State := mkState {
  invoices : gmap N Invoice;
  _invoiceCounter : uint256;
  _owner : address;
  balance : uint256;
  events : list Event;
  transfers : list Transfer
}.

Inductive Error :=
| Require (reason : string)
| Panic (code : N)
| OwnableUnauthorizedAccount (account : address)
| OwnableInvalidOwner (owner : address).

Inductive Result (A : Type) :=
| Ok (a : A)
| Reverted (e : Error).
Arguments Ok {A} a.
Arguments Reverted {A} e.

(** [require(cond, reason); k] *)
Definition require {A} (cond : bool) (reason : string) (k : Result A) : Result A :=
  if cond then k else Reverted (Require reason).

Notation "'require!' ( c , r ) ;; k" := (require c r k)
  (at level 10, c at level 99, r at level 0, k at level 200,
   format "'[v' 'require!'  ( c ,  r ) ;; '/' k ']'").

(** ** Storage access *)

(** [invoices[id]] read *)
Definition invoices_at (s : State) (id : uint256) : Invoice :=
  default zeroInvoice (invoices s !! id).

(** [invoices[id] = i] *)
Definition store_invoice (id : uint256) (i : Invoice) (s : State) : State :=
  mkState (<[id := i]> (invoices s)) (_invoiceCounter s) (_owner s)
          (balance s) (events s) (transfers s).

(** [invoices[id].status = st] *)
Definition set_status (id : uint256) (st : InvoiceStatus) (s : State) : State :=
  store_invoice id (with_status st (invoices_at s id)) s.

Definition set_counter (n : uint256) (s : State) : State :=
  mkState (invoices s) n (_owner s) (balance s) (events s) (transfers s).

Definition set_owner (a : address) (s : State) : State :=
  mkState (invoices s) (_invoiceCounter s) a (balance s) (events s) (transfers s).

(** [emit e] *)
Definition emit (e : Event) (s : State) : State :=
  mkState (invoices s) (_invoiceCounter s) (_owner s) (balance s)
          (events s ++ [e]) (transfers s).

(** Ether arriving with a payable call. *)
Definition credit (v : uint256) (s : State) : State :=
  mkState (invoices s) (_invoiceCounter s) (_owner s) (balance s + v)
          (events s) (transfers s).

(** Ether leaving with an outgoing call made for invoice [id]. *)
Definition debit (id : uint256) (to : address) (v : uint256) (s : State) : State :=
  mkState (invoices s) (_invoiceCounter s) (_owner s) (balance s - v)
          (events s) (transfers s ++ [mkTransfer id to v]).

(** [to.call{value: v}], made on behalf of invoice [id].  [code] is
    what the recipient does once it holds the ether: [None] when it
    reverts, otherwise the state it leaves the contract in.  The call
    also fails when the contract cannot afford [v].  A failed call
    returns [false] and changes nothing. *)
Definition call_value (code : State -> option State)
    (id : uint256) (to : address) (v : uint256) (s : State) : bool * State :=
  if balance s <? v then (false, s)
  else match code (debit id to v s) with
       | Some s' => (true, s')
       | None => (false, s)
       end.

(** ** Ownable

    The contract inherits from OpenZeppelin's [Ownable], which is
    imported and not part of the sources. *)

(** Modelled from the spec: the [onlyOwner] modifier of the [Ownable]
    base contract.  Spec section 4.3: [requireArbiter] fails with
    Unauthorized unless the caller is the process-wide arbiter identity.
    A modifier runs before the body [k] of the function it guards; the
    error is named as OpenZeppelin 5 names it. *)
Definition onlyOwner {A} (msg_sender : address) (s : State) (k : Result A) : Result A :=
  if _owner s =? msg_sender then k
  else Reverted (OwnableUnauthorizedAccount msg_sender).

(** Modelled from the spec: the ownership transfer of the [Ownable]
    base contract.  Spec section 9: a transfer operation gated by
    caller = current holder; section 3: the identity is never null. *)
Definition transferOwnership (msg_sender newOwner : address) (s : State) : Result State :=
  onlyOwner msg_sender s (
    if newOwner =? 0 then Reverted (OwnableInvalidOwner 0)
    else Ok (set_owner newOwner s)).

(** ** The contract's functions *)

(** [constructor(address initialOwner) Ownable(initialOwner)]: the
    counter starts at 0.  That [Ownable] refuses a null owner is taken
    from the spec (section 3: set once at construction, never null). *)
Definition constructor (initialOwner : address) : Result State :=
  if initialOwner =? 0 then Reverted (OwnableInvalidOwner 0)
  else Ok (mkState ∅ 0 initialOwner 0 [] []).

(** [_invoiceCounter++] is checked arithmetic: it panics with code 0x11
    instead of wrapping around. *)
Definition createInvoice (msg_sender freelancer : address) (amount : uint256)
    (description : string) (s : State) : Result (State * uint256) :=
  require! (negb (freelancer =? 0), "InvoiceEscrow: invalid freelancer address") ;;
  require! (0 <? amount, "InvoiceEscrow: amount must be greater than zero") ;;
  require! ((0 <? String.length description)%nat, "InvoiceEscrow: description cannot be empty") ;;
  let id := _invoiceCounter s in
  if id =? MAX_UINT256 then Reverted (Panic 17) else
  let s := set_counter (id + 1) s in
  let s := store_invoice id (mkInvoice id msg_sender freelancer amount description CREATED) s in
  let s := emit (InvoiceCreated id msg_sender freelancer amount description) s in
  Ok (s, id).

(** [payable]: the ether sent is the contract's before the body runs. *)
Definition fundInvoice (msg_sender : address) (msg_value : uint256)
    (id : uint256) (s : State) : Result State :=
  let s := credit msg_value s in
  let invoice := invoices_at s id in
  require! (negb (client invoice =? 0), "InvoiceEscrow: invoice does not exist") ;;
  require! (client invoice =? msg_sender, "InvoiceEscrow: only client can fund invoice") ;;
  require! (InvoiceStatus_eqb (status invoice) CREATED, "InvoiceEscrow: invoice must be in CREATED status") ;;
  require! (msg_value =? amount invoice, "InvoiceEscrow: sent amount must match invoice amount") ;;
  let s := set_status id FUNDED s in
  let s := emit (InvoiceFunded id msg_value) s in
  Ok s.

Definition markInvoiceCompleted (msg_sender : address) (id : uint256) (s : State)
    : Result State :=
  let invoice := invoices_at s id in
  require! (negb (freelancer invoice =? 0), "InvoiceEscrow: invoice does not exist") ;;
  require! (freelancer invoice =? msg_sender, "InvoiceEscrow: only freelancer can mark as completed") ;;
  require! (InvoiceStatus_eqb (status invoice) FUNDED, "InvoiceEscrow: invoice must be in FUNDED status") ;;
  let s := set_status id COMPLETED s in
  let s := emit (InvoiceCompleted id) s in
  Ok s.

(** [code] is what the freelancer's address does when it is sent the
    ether. *)
Definition releasePayment (code : State -> option State)
    (msg_sender : address) (id : uint256) (s : State) : Result State :=
  let invoice := invoices_at s id in
  require! (negb (client invoice =? 0), "InvoiceEscrow: invoice does not exist") ;;
  require! (client invoice =? msg_sender, "InvoiceEscrow: only client can release payment") ;;
  require! (InvoiceStatus_eqb (status invoice) COMPLETED, "InvoiceEscrow: invoice must be in COMPLETED status") ;;
  let amount := amount invoice in
  let freelancer := freelancer invoice in
  let s := set_status id PAID s in
  let '(success, s) := call_value code id freelancer amount s in
  require! (success, "InvoiceEscrow: payment transfer failed") ;;
  let s := emit (PaymentReleased id freelancer amount) s in
  Ok s.

Definition cancelInvoice (msg_sender : address) (id : uint256) (s : State)
    : Result State :=
  let invoice := invoices_at s id in
  require! (negb (client invoice =? 0), "InvoiceEscrow: invoice does not exist") ;;
  require! (client invoice =? msg_sender, "InvoiceEscrow: only client can cancel invoice") ;;
  require! (InvoiceStatus_eqb (status invoice) CREATED, "InvoiceEscrow: invoice must be in CREATED status") ;;
  let s := set_status id CANCELLED s in
  let s := emit (InvoiceCancelled id) s in
  Ok s.

(** [code] is what the recipient's address does when it is sent the
    ether. *)
Definition resolveDispute (code : State -> option State)
    (msg_sender : address) (id : uint256) (releaseToFreelancer : bool) (s : State)
    : Result State :=
  onlyOwner msg_sender s (
  let invoice := invoices_at s id in
  require! (negb (client invoice =? 0), "InvoiceEscrow: invoice does not exist") ;;
  require! (InvoiceStatus_eqb (status invoice) FUNDED
            || InvoiceStatus_eqb (status invoice) COMPLETED,
            "InvoiceEscrow: invoice must be FUNDED or COMPLETED for dispute resolution") ;;
  let amount := amount invoice in
  let '(recipient, s) :=
    if releaseToFreelancer
    then (freelancer invoice,
          emit (DisputeResolved id "release") (set_status id PAID s))
    else (client invoice,
          emit (DisputeResolved id "refund") (set_status id CANCELLED s)) in
  let '(success, s) := call_value code id recipient amount s in
  require! (success, "InvoiceEscrow: dispute resolution transfer failed") ;;
  let s := if releaseToFreelancer
           then emit (PaymentReleased id recipient amount) s else s in
  Ok s).

(** [receive() external payable {}] *)
Definition receive (msg_sender : address) (msg_value : uint256) (s : State) : Result State :=
  Ok (credit msg_value s).

Definition getInvoice (id : uint256) (s : State) : Result Invoice :=
  require! (negb (client (invoices_at s id) =? 0), "InvoiceEscrow: invoice does not exist") ;;
  Ok (invoices_at s id).

Definition getInvoiceStatus (id : uint256) (s : State) : Result InvoiceStatus :=
  require! (negb (client (invoices_at s id) =? 0), "InvoiceEscrow: invoice does not exist") ;;
  Ok (status (invoices_at s id)).

Definition getTotalInvoices (s : State) : uint256 :=
  _invoiceCounter s.

(** ** Message calls and transactions *)

(** A message call into the contract.  The two functions that send ether
    carry the behaviour of whoever receives it. *)
Inductive Call :=
| CreateInvoice (msg_sender freelancer : address) (amount : uint256) (description : string)
| FundInvoice (msg_sender : address) (msg_value : uint256) (id : uint256)
| MarkInvoiceCompleted (msg_sender : address) (id : uint256)
| ReleasePayment (msg_sender : address) (id : uint256) (payee : Callee)
| CancelInvoice (msg_sender : address) (id : uint256)
| ResolveDispute (msg_sender : address) (id : uint256) (releaseToFreelancer : bool)
                 (payee : Callee)
| TransferOwnership (msg_sender newOwner : address)
| Receive (msg_sender : address) (msg_value : uint256)
with Callee :=
| Rejects
| Accepts (reentrant : list Call).

(** The state a call leaves behind: its result, or the pre-state when it
    reverted. *)
Definition commit (r : Result State) (s : State) : State :=
  match r with
  | Ok s' => s'
  | Reverted _ => s
  end.

Definition dropId (r : Result (State * uint256)) : Result State :=
  match r with
  | Ok (s, _) => Ok s
  | Reverted e => Reverted e
  end.

(** [exec c s] runs one message call.  A re-entrant call that reverts is
    survived by the callee, which goes on with its next call; a callee
    that lets the revert escape is one that [Rejects]. *)
Fixpoint exec (c : Call) (s : State) {struct c} : Result State :=
  match c with
  | CreateInvoice sender fl amt d => dropId (createInvoice sender fl amt d s)
  | FundInvoice sender v id => fundInvoice sender v id s
  | MarkInvoiceCompleted sender id => markInvoiceCompleted sender id s
  | ReleasePayment sender id payee => releasePayment (callee payee) sender id s
  | CancelInvoice sender id => cancelInvoice sender id s
  | ResolveDispute sender id b payee => resolveDispute (callee payee) sender id b s
  | TransferOwnership sender o => transferOwnership sender o s
  | Receive sender v => receive sender v s
  end
with callee (k : Callee) (s : State) {struct k} : option State :=
  match k with
  | Rejects => None
  | Accepts cs => Some (fold_left (fun s c => commit (exec c s) s) cs s)
  end.

(** One transaction, and a sequence of them. *)
Definition apply (c : Call) (s : State) : State := commit (exec c s) s.

Definition run (cs : list Call) (s : State) : State :=
  fold_left (fun s c => apply c s) cs s.

(** [msg.sender] is never the zero address: no account and no contract
    lives there.  [valid_call] says so for a call and for every call
    nested in it. *)
Definition msg_sender_of (c : Call) : address :=
  match c with
  | CreateInvoice a _ _ _ | FundInvoice a _ _ | MarkInvoiceCompleted a _
  | ReleasePayment a _ _ | CancelInvoice a _ | ResolveDispute a _ _ _
  | TransferOwnership a _ | Receive a _ => a
  end.

(** The calls the recipient of the ether makes back into the contract
    while call [c] is running; none for a call that sends no ether. *)
Definition reentrant (c : Call) : list Call :=
  match c with
  | ReleasePayment _ _ (Accepts cs) | ResolveDispute _ _ _ (Accepts cs) => cs
  | _ => []
  end.

Fixpoint valid_call (c : Call) : bool :=
  negb (msg_sender_of c =? 0) &&
  match c with
  | ReleasePayment _ _ (Accepts cs) | ResolveDispute _ _ _ (Accepts cs) =>
      forallb valid_call cs
  | _ => true
  end.

(** The states the deployed contract can be in: those a sequence of
    transactions leads to from a successful construction. *)
Definition reachable (s : State) : Prop :=
  ∃ (initialOwner : address) (s0 : State) (txs : list Call),
    constructor initialOwner = Ok s0 ∧
    forallb valid_call txs = true ∧
    s = run txs s0.

(** ** What the log and the ledger of sent ether say about one invoice *)

Definition event_id (e : Event) : uint256 :=
  match e with
  | InvoiceCreated id _ _ _ _ | InvoiceFunded id _ | InvoiceCompleted id
  | PaymentReleased id _ _ | InvoiceCancelled id | DisputeResolved id _ => id
  end.

(** The events about invoice [id], oldest first. *)
Definition history (id : uint256) (s : State) : list Event :=
  filter (λ e, event_id e = id) (events s).

(** The ether sent out for invoice [id], oldest first. *)
Definition payouts (id : uint256) (s : State) : list Transfer :=
  filter (λ t, forInvoice t = id) (transfers s).

(** Ids carried by the [InvoiceCreated] events of a log, in order. *)
Definition created_ids (l : list Event) : list uint256 :=
  omap (λ e, match e with InvoiceCreated id _ _ _ _ => Some id | _ => None end) l.

(** [createInvoice] called once per request, in order, stopping at the
    first revert; returns the ids handed out. *)
Fixpoint createAll (reqs : list (address * address * uint256 * string)) (s : State)
    : Result (State * list uint256) :=
  match reqs with
  | [] => Ok (s, [])
  | (sender, fl, amt, d) :: reqs' =>
      match createInvoice sender fl amt d s with
      | Reverted e => Reverted e
      | Ok (s1, id) =>
          match createAll reqs' s1 with
          | Reverted e => Reverted e
          | Ok (s2, ids) => Ok (s2, id :: ids)
          end
      end
  end.

(** ** What [resolveDispute] does before the ether leaves *)

(** The writes of [resolveDispute] that precede the transfer, and the
    address the transfer goes to. *)
Definition resolution (id : uint256) (releaseToFreelancer : bool) (s : State) : State :=
  if releaseToFreelancer
  then emit (DisputeResolved id "release") (set_status id PAID s)
  else emit (DisputeResolved id "refund") (set_status id CANCELLED s).

Definition resolution_payee (releaseToFreelancer : bool) (i : Invoice) : address :=
  if releaseToFreelancer then freelancer i else client i.

(** ** Invariants *)

(** Every slot below the counter holds a record made by [createInvoice];
    no slot at or above it was ever written. *)
Definition stored_ok (s : State) : Prop :=
  ∀ id,
    match invoices s !! id with
    | Some i =>
        id < _invoiceCounter s ∧ invoiceId i = id ∧ freelancer i ≠ 0 ∧
        0 < amount i ∧ description i ≠ ""
    | None => _invoiceCounter s ≤ id
    end.

Definition clients_ok (s : State) : Prop :=
  ∀ id i, invoices s !! id = Some i → client i ≠ 0.

Definition terminal (st : InvoiceStatus) : Prop := st = PAID ∨ st = CANCELLED.

(** Invoice [i] is still stored under [id] with the fields
    [createInvoice] gave it; only its status may have changed. *)
Definition keeps (id : uint256) (i : Invoice) (s : State) : Prop :=
  ∃ st, invoices s !! id = Some (with_status st i).

(** Everything the chain records about invoice [id]: its storage slot,
    its events and the ether sent out for it. *)
Definition view (id : uint256) (s : State)
    : option Invoice * list Event * list Transfer :=
  (invoices s !! id, history id s, payouts id s).

(** The records an invoice can have, by status.  An invoice in a given
    status got there along one of the listed event sequences, with the
    listed ether sent. *)
Definition audit (id : uint256)
    (v : option Invoice * list Event * list Transfer) : Prop :=
  let '(slot, h, p) := v in
  match slot with
  | None => h = [] ∧ p = []
  | Some i =>
      let c := InvoiceCreated id (client i) (freelancer i) (amount i) (description i) in
      let f := InvoiceFunded id (amount i) in
      let m := InvoiceCompleted id in
      let x := InvoiceCancelled id in
      let rel := DisputeResolved id "release" in
      let ref := DisputeResolved id "refund" in
      let pr := PaymentReleased id (freelancer i) (amount i) in
      let pay := mkTransfer id (freelancer i) (amount i) in
      let back := mkTransfer id (client i) (amount i) in
      match status i with
      | CREATED => h = [c] ∧ p = []
      | FUNDED => h = [c; f] ∧ p = []
      | COMPLETED => h = [c; f; m] ∧ p = []
      | PAID =>
          (h = [c; f; m; pr] ∨ h = [c; f; rel; pr] ∨ h = [c; f; m; rel; pr]) ∧
          p = [pay]
      | CANCELLED =>
          (h = [c; x] ∧ p = []) ∨
          ((h = [c; f; ref] ∨ h = [c; f; m; ref]) ∧ p = [back])
      end
  end.

Definition audit_ok (id : uint256) (s : State) : Prop := audit id (view id s).

(** The ids [0, 1, ..., n-1]. *)
Definition first_ids (n : nat) : list uint256 := map N.of_nat (seq 0 n).

(** The invoice a transition is about; [None] for the calls that are not
    transitions of an invoice. *)
Definition transition_on (c : Call) : option uint256 :=
  match c with
  | FundInvoice _ _ id | MarkInvoiceCompleted _ id | ReleasePayment _ id _
  | CancelInvoice _ id | ResolveDispute _ id _ _ => Some id
  | CreateInvoice _ _ _ _ | TransferOwnership _ _ | Receive _ _ => None
  end.

(** The ids in the [InvoiceCreated] events are those below the counter,
    in order. *)
Definition ids_ok (s : State) : Prop :=
  created_ids (events s) = first_ids (N.to_nat (_invoiceCounter s)).

(** A call that fails with error [e]; the transaction leaves the state
    as it found it. *)
Definition reverts_with (c : Call) (s : State) (e : Error) : Prop :=
  exec c s = Reverted e ∧ apply c s = s.

(** ** Escrow holdings *)

(** The ether an invoice has in escrow: its amount while it is FUNDED or
    COMPLETED, nothing before funding and after the payout or refund. *)
Definition held_by (i : Invoice) : uint256 :=
  match status i with
  | FUNDED | COMPLETED => amount i
  | CREATED | PAID | CANCELLED => 0
  end.

Definition add_held (id : uint256) (i : Invoice) (acc : uint256) : uint256 :=
  held_by i + acc.

(** The ether in escrow over all invoices. *)
Definition held (s : State) : uint256 := map_fold add_held 0 (invoices s).

(** The contract's balance covers what it holds in escrow. *)
Definition solvent (s : State) : Prop := held s ≤ balance s.

(** ** The order of the lifecycle *)

(** How far an invoice has come: both terminal statuses are last. *)
Definition status_rank (st : InvoiceStatus) : nat :=
  match st with
  | CREATED => 0
  | FUNDED => 1
  | COMPLETED => 2
  | PAID | CANCELLED => 3
  end.

(** [b] is [a] or a status further on. *)
Definition status_advances (a b : InvoiceStatus) : Prop :=
  a = b ∨ (status_rank a < status_rank b)%nat.

(** * The API server

    [api/src/services/contractService.ts] wraps the contract's functions
    in methods that sign and send a transaction, and the router
    ([routes/invoiceRoutes]) puts an HTTP route in front of each
    method.  What they do with the ledger is modelled on [State]:
    a view call reads the state it is made on, a transaction is an
    [exec] on the state it is mined on, and the transactions other
    users get mined in between are a parameter.  A transaction hash
    stands for nothing here: where the source returns one, the model
    returns the state the transaction produced.  An invoice id is taken
    after [parseInt] and the conversion to [uint256]; fields of a
    request body are strings or absent. *)

(** What [ethers] and the JavaScript runtime provide. *)
Record Platform := mkPlatform {
  (** [new ethers.Wallet(privateKey).address]; the constructor throws
      on a malformed key *)
  Wallet : string → option address;
  isAddress : string → bool;
  getAddress : string → address;
  (** [ethers.parseEther] throws on a malformed amount *)
  parseEther : string → option uint256;
  trim : string → string
}.

(** [!x] for a string that may be [undefined]: true for [undefined] and
    for the empty string. *)
Definition falsy (x : option string) : bool :=
  match x with
  | None | Some EmptyString => true
  | Some (String _ _) => false
  end.

(** [a || b] for such an [a]. *)
Definition or_else (a : option string) (b : string) : string :=
  if falsy a then b else default b a.

(** What is thrown: [Because what cause] is
    [new Error(`${what}: ${cause.message}`)]. *)
Inductive Exception :=
| Revert (e : Error)
| InvalidPrivateKey
| InvalidAmount
| Because (what : string) (cause : Exception).

Inductive Promise (A : Type) :=
| Resolved (a : A)
| Rejected (error : Exception).
Arguments Resolved {A} a.
Arguments Rejected {A} error.

#[global] Instance Promise_ret : MRet Promise := @Resolved.

#[global] Instance Promise_bind : MBind Promise := λ A B f p,
  match p with
  | Resolved a => f a
  | Rejected error => Rejected error
  end.

(** [await] of a call into the contract: a revert is thrown. *)
Definition await {A} (r : Result A) : Promise A :=
  match r with
  | Ok a => Resolved a
  | Reverted e => Rejected (Revert e)
  end.

Definition orThrow {A} (error : Exception) (x : option A) : Promise A :=
  match x with
  | Some a => Resolved a
  | None => Rejected error
  end.

(** [try { ... } catch (error) { throw new Error(`what: ...`) }] *)
Definition rethrow {A} (what : string) (p : Promise A) : Promise A :=
  match p with
  | Resolved a => Resolved a
  | Rejected error => Rejected (Because what error)
  end.

(** The ordinal of an enum constant: what the ABI carries for a status,
    and what [Number(invoice.status)] is. *)
Definition InvoiceStatus_ordinal (st : InvoiceStatus) : nat :=
  match st with
  | CREATED => 0
  | FUNDED => 1
  | COMPLETED => 2
  | PAID => 3
  | CANCELLED => 4
  end.

(** The identifier of an enum constant in the contract. *)
Definition InvoiceStatus_name (st : InvoiceStatus) : string :=
  match st with
  | CREATED => "CREATED"
  | FUNDED => "FUNDED"
  | COMPLETED => "COMPLETED"
  | PAID => "PAID"
  | CANCELLED => "CANCELLED"
  end.

(** ** [class ContractService] *)

(** [this.wallet.address] is the address of the server's own key. *)
Record ContractService := mkContractService {
  ethers : Platform;
  wallet : address
}.

(** [interface Invoice] of the service *)
Record ApiInvoice := mkApiInvoice {
  api_invoiceId : uint256;
  api_client : address;
  api_freelancer : address;
  api_amount : uint256;
  api_description : string;
  api_status : nat
}.

(** The signer of the contract instance that [getContractWithWallet]
    returns: the server's wallet when no key is given. *)
Definition getContractWithWallet (this : ContractService)
    (privateKey : option string) : Promise address :=
  if falsy privateKey then Resolved (wallet this)
  else orThrow InvalidPrivateKey (Wallet (ethers this) (default "" privateKey)).

(** [receipt.logs]: the events the transaction from [s] to [s'] logged. *)
Definition logs (s s' : State) : list Event :=
  drop (length (events s)) (events s').

(** [parsed?.name === 'InvoiceCreated'] *)
Definition isInvoiceCreated (log : Event) : bool :=
  match log with
  | InvoiceCreated _ _ _ _ _ => true
  | _ => false
  end.

(** The id is the first argument of the [InvoiceCreated] event of the
    receipt; without such an event it is [getTotalInvoices() - 1n], read
    when [later] has been mined. *)
Definition ContractService_createInvoice (this : ContractService)
    (freelancer : address) (amount description : string)
    (privateKey : option string) (later : list Call) (s : State)
    : Promise (State * Z) :=
  rethrow "Failed to create invoice" (
    signer ← getContractWithWallet this privateKey;
    amountWei ← orThrow InvalidAmount (parseEther (ethers this) amount);
    '(s', _) ← await (createInvoice signer freelancer amountWei description s);
    let event := List.find isInvoiceCreated (logs s s') in
    let invoiceId :=
      match event with
      | Some parsed => Z.of_N (event_id parsed)
      | None => (Z.of_N (getTotalInvoices (run later s')) - 1)%Z
      end in
    Resolved (s', invoiceId)).

(** Reads the invoice on [s] and sends its amount with the funding
    transaction, which is mined after [between]. *)
Definition ContractService_fundInvoice (this : ContractService)
    (id : uint256) (privateKey : option string)
    (between : list Call) (s : State) : Promise State :=
  rethrow "Failed to fund invoice" (
    signer ← getContractWithWallet this privateKey;
    invoice ← await (getInvoice id s);
    await (exec (FundInvoice signer (amount invoice) id) (run between s))).

(** The recipient of the ether that [releasePayment] and
    [resolveDispute] send is a parameter, as it is for the contract. *)
Definition ContractService_markInvoiceCompleted (this : ContractService)
    (id : uint256) (privateKey : option string) (s : State) : Promise State :=
  rethrow "Failed to mark invoice as completed" (
    signer ← getContractWithWallet this privateKey;
    await (exec (MarkInvoiceCompleted signer id) s)).

Definition ContractService_releasePayment (this : ContractService)
    (id : uint256) (privateKey : option string) (payee : Callee) (s : State)
    : Promise State :=
  rethrow "Failed to release payment" (
    signer ← getContractWithWallet this privateKey;
    await (exec (ReleasePayment signer id payee) s)).

Definition ContractService_cancelInvoice (this : ContractService)
    (id : uint256) (privateKey : option string) (s : State) : Promise State :=
  rethrow "Failed to cancel invoice" (
    signer ← getContractWithWallet this privateKey;
    await (exec (CancelInvoice signer id) s)).


Definition ContractService_getInvoice (id : uint256) (s : State)
    : Promise ApiInvoice :=
  rethrow "Failed to get invoice" (
    invoice ← await (getInvoice id s);
    Resolved (mkApiInvoice (invoiceId invoice) (client invoice)
                (freelancer invoice) (amount invoice) (description invoice)
                (InvoiceStatus_ordinal (status invoice)))).


(** ** The routes *)

(** The answer of a route: [Json] for [res.status(code).json] of a
    success, [Refused] for a 400 with its [error] and, where the source
    passes one on, the exception as [message], and [ServerError] for the
    500 of the outer [catch], whose [error] is the exception's message.
    Other fields of a body (help texts, the request's own values, the
    transaction hash, numbers printed as strings) are left out. *)
Inductive Response (A : Type) :=
| Json (code : nat) (data : A)
| Refused (error : string) (message : option Exception)
| ServerError (error : Exception).
Arguments Json {A} code data.
Arguments Refused {A} error message.
Arguments ServerError {A} error.

(** [POST /api/invoices]: the service is called without a key, so the
    server's wallet signs. *)
Definition route_create (this : ContractService)
    (freelancer amount description : option string)
    (later : list Call) (s : State) : Response (State * Z) :=
  if falsy freelancer || falsy amount || falsy description then
    Refused "Missing required fields: freelancer, amount, description" None
  else
    let trimmedAddress := trim (ethers this) (default "" freelancer) in
    if negb (isAddress (ethers this) trimmedAddress) then
      Refused "Invalid freelancer address" None
    else
      let normalizedAddress := getAddress (ethers this) trimmedAddress in
      match ContractService_createInvoice this normalizedAddress
              (default "" amount) (default "" description) None later s with
      | Resolved result => Json 201 result
      | Rejected error => ServerError error
      end.

(** The check of a key that comes with a request, which the routes
    [fund], [complete], [release] and [cancel] each spell out: [party]
    is the field of the invoice the key's address is compared with.
    [Some] is a response the handler returns with.  Reading the invoice
    sits in the same [try] as building the wallet, so a failure of
    either is answered as an invalid key. *)
Definition checkPrivateKey {A} (this : ContractService)
    (party : ApiInvoice → address) (mismatch : string)
    (id : uint256) (privateKey : option string) (s : State)
    : option (Response A) :=
  if falsy privateKey then None
  else
    let key := default "" privateKey in
    if isAddress (ethers this) key then
      Some (Refused "You provided an address instead of a private key" None)
    else
      match
        wallet ← orThrow InvalidPrivateKey (Wallet (ethers this) key);
        invoice ← ContractService_getInvoice id s;
        Resolved (wallet, invoice)
      with
      | Rejected error => Some (Refused "Invalid private key" (Some error))
      | Resolved (wallet, invoice) =>
          if negb (wallet =? party invoice) then Some (Refused mismatch None)
          else None
      end.


(** [POST /api/invoices/:id/complete] *)
Definition route_complete (this : ContractService) (id : uint256)
    (privateKey : option string) (before : list Call) (s : State)
    : Response State :=
  match checkPrivateKey this api_freelancer
          "Private key does not match the freelancer address"
          id privateKey s with
  | Some response => response
  | None =>
      match ContractService_markInvoiceCompleted this id privateKey
              (run before s) with
      | Resolved s' => Json 200 s'
      | Rejected error => ServerError error
      end
  end.

(** [POST /api/invoices/:id/release] *)
Definition route_release (this : ContractService) (id : uint256)
    (privateKey : option string) (payee : Callee) (before : list Call) (s : State)
    : Response State :=
  match checkPrivateKey this api_client
          "Private key does not match the client address"
          id privateKey s with
  | Some response => response
  | None =>
      match ContractService_releasePayment this id privateKey payee
              (run before s) with
      | Resolved s' => Json 200 s'
      | Rejected error => ServerError error
      end
  end.

(** [POST /api/invoices/:id/cancel] *)
Definition route_cancel (this : ContractService) (id : uint256)
    (privateKey : option string) (before : list Call) (s : State)
    : Response State :=
  match checkPrivateKey this api_client
          "Private key does not match the client address"
          id privateKey s with
  | Some response => response
  | None =>
      match ContractService_cancelInvoice this id privateKey (run before s) with
      | Resolved s' => Json 200 s'
      | Rejected error => ServerError error
      end
  end.


Definition statusNames : list string :=
  ["CREATED"; "FUNDED"; "COMPLETED"; "PAID"; "CANCELLED"].

(** [statusNames[status] || 'UNKNOWN'] *)
Definition statusName (status : nat) : string :=
  or_else (statusNames !! status) "UNKNOWN".

(** [GET /api/invoices/:id] *)
Definition route_get (id : uint256) (s : State)
    : Response (ApiInvoice * string) :=
  match ContractService_getInvoice id s with
  | Resolved invoice => Json 200 (invoice, statusName (api_status invoice))
  | Rejected error => ServerError error
  end.


(** ** Start of the server *)





(** A server for the scenario of the sample ledgers: its wallet is the
    arbiter's, and the keys it can be sent are those of the client and
    of the freelancer. *)
Definition sample_platform : Platform :=
  mkPlatform
    (λ key, if String.eqb key "key of 1" then Some 1
            else if String.eqb key "key of 2" then Some 2 else None)
    (λ a, String.eqb a "0x02")
    (λ _, 2)
    (λ a, if String.eqb a "0.0000000000000001" then Some 100 else None)
    (λ a, a).

Definition sample_service : ContractService := mkContractService sample_platform 9.

(** ** Sample ledgers

    The scenario of the spec: client 1 creates invoice 0 for freelancer 2
    over 100 wei, on a ledger whose arbiter is 9. *)
Definition fresh_ledger : State := mkState ∅ 0 9 0 [] [].

Definition created_ledger : State :=
  run [CreateInvoice 1 2 100 "web work"] fresh_ledger.

Definition completed_ledger : State :=
  run [FundInvoice 1 100 0; MarkInvoiceCompleted 2 0] created_ledger.

Definition paid_ledger : State :=
  run [ReleasePayment 1 0 (Accepts [])] completed_ledger.

(** The client releases invoice 0; freelancer 2, on receiving the ether,
    calls back and creates an invoice of its own. *)
Definition reentering_release : Call :=
  ReleasePayment 1 0 (Accepts [CreateInvoice 2 2 5 "x"]).

(** ** Induction over calls and the calls nested in them *)

Section Call_nested_ind.
Variable P : Call → Prop.

Definition payee_all (k : Callee) : Prop :=
  match k with
  | Rejects => True
  | Accepts cs => Forall P cs
  end.

Hypothesis Hcreate : ∀ a f v d, P (CreateInvoice a f v d).
Hypothesis Hfund : ∀ a v id, P (FundInvoice a v id).
Hypothesis Hcomplete : ∀ a id, P (MarkInvoiceCompleted a id).
Hypothesis Hrelease : ∀ a id k, payee_all k → P (ReleasePayment a id k).
Hypothesis Hcancel : ∀ a id, P (CancelInvoice a id).
Hypothesis Hresolve : ∀ a id b k, payee_all k → P (ResolveDispute a id b k).
Hypothesis Htransfer : ∀ a o, P (TransferOwnership a o).
Hypothesis Hreceive : ∀ a v, P (Receive a v).

Fixpoint Call_nested_ind (c : Call) : P c :=
  let payee (k : Callee) : payee_all k :=
    match k return payee_all k with
    | Rejects => I
    | Accepts cs =>
        (fix all (l : list Call) : Forall P l :=
           match l with
           | [] => List.Forall_nil P
           | c' :: l' => @List.Forall_cons _ P c' l' (Call_nested_ind c') (all l')
           end) cs
    end in
  match c with
  | CreateInvoice a f v d => Hcreate a f v d
  | FundInvoice a v id => Hfund a v id
  | MarkInvoiceCompleted a id => Hcomplete a id
  | ReleasePayment a id k => Hrelease a id k (payee k)
  | CancelInvoice a id => Hcancel a id
  | ResolveDispute a id b k => Hresolve a id b k (payee k)
  | TransferOwnership a o => Htransfer a o
  | Receive a v => Hreceive a v
  end.
End Call_nested_ind.

(** * Proofs *)

(** ** Small facts about the building blocks *)

Lemma InvoiceStatus_eqb_eq a b : InvoiceStatus_eqb a b = true ↔ a = b.
Proof. destruct a, b; cbn; split; congruence. Qed.

Lemma require_Ok {A} c r (k : Result A) a :
  require c r k = Ok a ↔ c = true ∧ k = Ok a.
Proof. destruct c; cbn; split; [tauto | tauto | discriminate | intros [? _]; discriminate]. Qed.

Lemma require_false {A} c r (k : Result A) :
  c = false → require c r k = Reverted (Require r).
Proof. intros ->. reflexivity. Qed.

Lemma require_true {A} c r (k : Result A) :
  c = true → require c r k = k.
Proof. intros ->. reflexivity. Qed.

Lemma onlyOwner_Ok {A} a s (k : Result A) x :
  onlyOwner a s k = Ok x ↔ _owner s = a ∧ k = Ok x.
Proof.
  unfold onlyOwner. destruct (N.eqb_spec (_owner s) a); split;
    try tauto; try discriminate.
Qed.

Lemma callee_Accepts cs s : callee (Accepts cs) s = Some (run cs s).
Proof. reflexivity. Qed.

Lemma run_nil s : run [] s = s.
Proof. reflexivity. Qed.

Lemma run_cons c cs s : run (c :: cs) s = run cs (apply c s).
Proof. reflexivity. Qed.

Lemma run_app cs1 cs2 s : run (cs1 ++ cs2) s = run cs2 (run cs1 s).
Proof. unfold run. apply fold_left_app. Qed.

(** An invariant of single calls is an invariant of sequences. *)
Lemma run_preserves (I : State → Prop) cs :
  Forall (λ c, ∀ s, I s → I (apply c s)) cs → ∀ s, I s → I (run cs s).
Proof.
  induction 1 as [|c cs Hc _ IH]; intros s Hs; [exact Hs|].
  rewrite run_cons. apply IH, Hc, Hs.
Qed.

Lemma call_value_true code id to v s s' :
  call_value code id to v s = (true, s') ↔
  v ≤ balance s ∧ code (debit id to v s) = Some s'.
Proof.
  unfold call_value. destruct (N.ltb_spec (balance s) v).
  - split; [discriminate | lia].
  - destruct (code _); split.
    + intros [= ->]. split; [lia | reflexivity].
    + intros [_ [= ->]]. reflexivity.
    + discriminate.
    + intros [_ ?]. discriminate.
Qed.

(** ** When the functions succeed, and what they return *)

Lemma nonempty_length (d : string) : (0 <? String.length d)%nat = true ↔ d ≠ "".
Proof. destruct d; cbn; split; congruence. Qed.

Lemma createInvoice_Ok a f v d s s' id :
  createInvoice a f v d s = Ok (s', id) ↔
  f ≠ 0 ∧ 0 < v ∧ d ≠ "" ∧ _invoiceCounter s ≠ MAX_UINT256 ∧
  id = _invoiceCounter s ∧
  s' = emit (InvoiceCreated id a f v d)
         (store_invoice id (mkInvoice id a f v d CREATED) (set_counter (id + 1) s)).
Proof.
  unfold createInvoice.
  rewrite !require_Ok, negb_true_iff, N.eqb_neq, N.ltb_lt, nonempty_length.
  destruct (N.eqb_spec (_invoiceCounter s) MAX_UINT256) as [E|E].
  - split; [intros (_ & _ & _ & ?); discriminate | tauto].
  - split.
    + intros (? & ? & ? & [= <- <-]). tauto.
    + intros (? & ? & ? & _ & -> & ->). tauto.
Qed.

Lemma fundInvoice_Ok a v id s s' :
  fundInvoice a v id s = Ok s' ↔
  client (invoices_at s id) ≠ 0 ∧ client (invoices_at s id) = a ∧
  status (invoices_at s id) = CREATED ∧ v = amount (invoices_at s id) ∧
  s' = emit (InvoiceFunded id v) (set_status id FUNDED (credit v s)).
Proof.
  unfold fundInvoice.
  change (invoices_at (credit v s) id) with (invoices_at s id).
  rewrite !require_Ok, negb_true_iff, N.eqb_neq, !N.eqb_eq, InvoiceStatus_eqb_eq.
  split.
  - intros (? & ? & ? & ? & [= <-]). tauto.
  - intros (? & ? & ? & ? & ->). tauto.
Qed.

Lemma markInvoiceCompleted_Ok a id s s' :
  markInvoiceCompleted a id s = Ok s' ↔
  freelancer (invoices_at s id) ≠ 0 ∧ freelancer (invoices_at s id) = a ∧
  status (invoices_at s id) = FUNDED ∧
  s' = emit (InvoiceCompleted id) (set_status id COMPLETED s).
Proof.
  unfold markInvoiceCompleted.
  rewrite !require_Ok, negb_true_iff, N.eqb_neq, !N.eqb_eq, InvoiceStatus_eqb_eq.
  split.
  - intros (? & ? & ? & [= <-]). tauto.
  - intros (? & ? & ? & ->). tauto.
Qed.

Lemma cancelInvoice_Ok a id s s' :
  cancelInvoice a id s = Ok s' ↔
  client (invoices_at s id) ≠ 0 ∧ client (invoices_at s id) = a ∧
  status (invoices_at s id) = CREATED ∧
  s' = emit (InvoiceCancelled id) (set_status id CANCELLED s).
Proof.
  unfold cancelInvoice.
  rewrite !require_Ok, negb_true_iff, N.eqb_neq, !N.eqb_eq, InvoiceStatus_eqb_eq.
  split.
  - intros (? & ? & ? & [= <-]). tauto.
  - intros (? & ? & ? & ->). tauto.
Qed.

Lemma releasePayment_Ok code a id s s' :
  releasePayment code a id s = Ok s' ↔
  client (invoices_at s id) ≠ 0 ∧ client (invoices_at s id) = a ∧
  status (invoices_at s id) = COMPLETED ∧
  amount (invoices_at s id) ≤ balance s ∧
  ∃ s2,
    code (debit id (freelancer (invoices_at s id)) (amount (invoices_at s id))
            (set_status id PAID s)) = Some s2 ∧
    s' = emit (PaymentReleased id (freelancer (invoices_at s id))
                 (amount (invoices_at s id))) s2.
Proof.
  unfold releasePayment.
  rewrite !require_Ok, negb_true_iff, N.eqb_neq, !N.eqb_eq, InvoiceStatus_eqb_eq.
  destruct (call_value _ _ _ _ _) as [b s2] eqn:E.
  rewrite require_Ok. split.
  - intros (? & ? & ? & -> & [= <-]).
    apply call_value_true in E as [? ?]. eauto 10.
  - intros (? & ? & ? & ? & s3 & Hc & ->).
    assert (E' : call_value code id (freelancer (invoices_at s id))
              (amount (invoices_at s id)) (set_status id PAID s) = (true, s3))
      by (apply call_value_true; auto).
    rewrite E in E'. injection E' as -> ->. tauto.
Qed.

Lemma resolveDispute_Ok code a id b s s' :
  resolveDispute code a id b s = Ok s' ↔
  _owner s = a ∧
  client (invoices_at s id) ≠ 0 ∧
  (status (invoices_at s id) = FUNDED ∨ status (invoices_at s id) = COMPLETED) ∧
  amount (invoices_at s id) ≤ balance s ∧
  ∃ s2,
    code (debit id (resolution_payee b (invoices_at s id)) (amount (invoices_at s id))
            (resolution id b s)) = Some s2 ∧
    s' = if b
         then emit (PaymentReleased id (freelancer (invoices_at s id))
                      (amount (invoices_at s id))) s2
         else s2.
Proof.
  unfold resolveDispute.
  rewrite onlyOwner_Ok, !require_Ok, negb_true_iff, N.eqb_neq, orb_true_iff,
    !InvoiceStatus_eqb_eq.
  destruct b; cbn [resolution resolution_payee].
  all: destruct (call_value _ _ _ _ _) as [ok s2] eqn:E; rewrite require_Ok; split.
  1, 3: intros (? & ? & ? & -> & [= <-]);
    apply call_value_true in E as [? ?]; eauto 10.
  all: intros (? & ? & ? & ? & s3 & Hc & ->);
    match type of E with
    | call_value ?c ?i ?t ?v ?s = _ =>
        assert (E' : call_value c i t v s = (true, s3))
          by (apply call_value_true; auto)
    end;
    rewrite E in E'; injection E' as -> ->; tauto.
Qed.

Lemma transferOwnership_Ok a o s s' :
  transferOwnership a o s = Ok s' ↔ _owner s = a ∧ o ≠ 0 ∧ s' = set_owner o s.
Proof.
  unfold transferOwnership. rewrite onlyOwner_Ok.
  destruct (N.eqb_spec o 0); split.
  - intros (_ & ?). discriminate.
  - tauto.
  - intros (? & [= <-]). tauto.
  - intros (? & ? & ->). tauto.
Qed.

(** ** Reading the mapping *)

Lemma invoices_at_lookup s id i : invoices s !! id = Some i → invoices_at s id = i.
Proof. unfold invoices_at. intros ->. reflexivity. Qed.

Lemma invoices_at_None s id : invoices s !! id = None → invoices_at s id = zeroInvoice.
Proof. unfold invoices_at. intros ->. reflexivity. Qed.

Lemma client_exists s id :
  client (invoices_at s id) ≠ 0 → invoices s !! id = Some (invoices_at s id).
Proof. unfold invoices_at. destruct (invoices s !! id); cbn; congruence. Qed.

Lemma freelancer_exists s id :
  freelancer (invoices_at s id) ≠ 0 → invoices s !! id = Some (invoices_at s id).
Proof. unfold invoices_at. destruct (invoices s !! id); cbn; congruence. Qed.

Lemma status_exists s id :
  status (invoices_at s id) ≠ CREATED → invoices s !! id = Some (invoices_at s id).
Proof. unfold invoices_at. destruct (invoices s !! id); cbn; congruence. Qed.

Lemma terminal_exists s id :
  terminal (status (invoices_at s id)) → invoices s !! id = Some (invoices_at s id).
Proof. intros [H|H]; apply status_exists; rewrite H; discriminate. Qed.

Lemma lookup_set_status id st s id' :
  invoices (set_status id st s) !! id' =
  if decide (id = id') then Some (with_status st (invoices_at s id))
  else invoices s !! id'.
Proof. cbn. apply lookup_insert. Qed.

Lemma invoices_at_set_status id st s :
  invoices_at (set_status id st s) id = with_status st (invoices_at s id).
Proof. unfold invoices_at at 1. rewrite lookup_set_status, decide_True by done. done. Qed.

Lemma invoices_at_set_status_ne id st s id' :
  id ≠ id' → invoices_at (set_status id st s) id' = invoices_at s id'.
Proof.
  intros. unfold invoices_at at 1. rewrite lookup_set_status, decide_False by done. done.
Qed.

Lemma callee_Some k s s2 :
  callee k s = Some s2 ↔ ∃ cs, k = Accepts cs ∧ s2 = run cs s.
Proof.
  destruct k as [|cs]; cbn [callee]; split.
  - discriminate.
  - intros (? & ? & _). discriminate.
  - intros [= <-]. eauto.
  - intros (? & [= <-] & ->). reflexivity.
Qed.

(** What holds before the payee runs and is kept by each of its calls
    holds when it returns. *)
Lemma payee_preserves (I : State → Prop) k s s2 :
  payee_all (λ c, ∀ s, I s → I (apply c s)) k →
  callee k s = Some s2 → I s → I s2.
Proof.
  intros Hk (cs & -> & ->)%callee_Some. cbn in Hk. by apply run_preserves.
Qed.

(** ** Well-formedness of the ledger *)

Lemma stored_ok_frame s s' :
  invoices s' = invoices s → _invoiceCounter s' = _invoiceCounter s →
  stored_ok s → stored_ok s'.
Proof. unfold stored_ok. intros -> ->. done. Qed.

Lemma stored_ok_set_status id st s :
  is_Some (invoices s !! id) → stored_ok s → stored_ok (set_status id st s).
Proof.
  intros [i Hi] Hs id'. rewrite lookup_set_status.
  change (_invoiceCounter (set_status id st s)) with (_invoiceCounter s).
  case_decide as E; [subst id'|exact (Hs id')].
  rewrite (invoices_at_lookup _ _ _ Hi). specialize (Hs id). rewrite Hi in Hs.
  exact Hs.
Qed.

Lemma stored_ok_emit e s : stored_ok s → stored_ok (emit e s).
Proof. by apply stored_ok_frame. Qed.

Lemma stored_ok_debit id to v s : stored_ok s → stored_ok (debit id to v s).
Proof. by apply stored_ok_frame. Qed.

Lemma stored_ok_credit v s : stored_ok s → stored_ok (credit v s).
Proof. by apply stored_ok_frame. Qed.

Lemma stored_ok_resolution id b s :
  is_Some (invoices s !! id) → stored_ok s → stored_ok (resolution id b s).
Proof.
  intros. unfold resolution.
  destruct b; by apply stored_ok_emit, stored_ok_set_status.
Qed.

Lemma stored_ok_create s s' a f v d id :
  createInvoice a f v d s = Ok (s', id) → stored_ok s → stored_ok s'.
Proof.
  intros (Hf & Hv & Hd & Hmax & -> & ->)%createInvoice_Ok Hs id'. cbn.
  rewrite lookup_insert. case_decide as E.
  - subst id'. cbn. repeat split; auto. lia.
  - specialize (Hs id'). destruct (invoices s !! id'); [|lia].
    destruct Hs as (? & ?). split; [lia|done].
Qed.

Lemma stored_ok_apply c s : stored_ok s → stored_ok (apply c s).
Proof.
  revert s. induction c using Call_nested_ind; intros s Hs; unfold apply;
    destruct (exec _ s) as [s'|e] eqn:E; cbn [commit]; try assumption;
    cbn [exec] in E.
  - unfold dropId in E.
    destruct (createInvoice _ _ _ _ _) as [[s1 id]|] eqn:E1; [|discriminate].
    injection E as <-. eapply stored_ok_create; eauto.
  - apply fundInvoice_Ok in E as (Hc%client_exists & _ & _ & _ & ->).
    apply stored_ok_emit, stored_ok_set_status; [by eexists|].
    by apply stored_ok_credit.
  - apply markInvoiceCompleted_Ok in E as (Hc%freelancer_exists & _ & _ & ->).
    apply stored_ok_emit, stored_ok_set_status; [by eexists|done].
  - apply releasePayment_Ok in E as (Hc%client_exists & _ & _ & _ & s2 & Hk & ->).
    apply stored_ok_emit.
    eapply payee_preserves; [exact H|exact Hk|].
    apply stored_ok_debit, stored_ok_set_status; [by eexists|done].
  - apply cancelInvoice_Ok in E as (Hc%client_exists & _ & _ & ->).
    apply stored_ok_emit, stored_ok_set_status; [by eexists|done].
  - apply resolveDispute_Ok in E as (_ & Hc%client_exists & _ & _ & s2 & Hk & ->).
    assert (stored_ok s2) as Hs2.
    { eapply payee_preserves; [exact H|exact Hk|].
      apply stored_ok_debit, stored_ok_resolution; [by eexists|done]. }
    destruct b; [by apply stored_ok_emit|done].
  - apply transferOwnership_Ok in E as (_ & _ & ->). by apply (stored_ok_frame s).
  - injection E as <-. by apply stored_ok_credit.
Qed.

Lemma stored_ok_run cs s : stored_ok s → stored_ok (run cs s).
Proof.
  apply (run_preserves stored_ok). apply Forall_forall. intros c _ ?.
  apply stored_ok_apply.
Qed.

(** ** How the primitive writes change the view of one invoice *)

Lemma history_emit id e s :
  history id (emit e s) =
  history id s ++ (if decide (event_id e = id) then [e] else []).
Proof.
  unfold history. cbn [events emit]. by rewrite filter_app.
Qed.

Lemma payouts_debit id id' to v s :
  payouts id (debit id' to v s) =
  payouts id s ++ (if decide (id' = id) then [mkTransfer id' to v] else []).
Proof.
  unfold payouts. cbn [transfers debit]. by rewrite filter_app.
Qed.

Lemma history_set_status id id' st s : history id (set_status id' st s) = history id s.
Proof. reflexivity. Qed.

Lemma history_debit id id' to v s : history id (debit id' to v s) = history id s.
Proof. reflexivity. Qed.

Lemma history_credit id v s : history id (credit v s) = history id s.
Proof. reflexivity. Qed.

Lemma payouts_emit id e s : payouts id (emit e s) = payouts id s.
Proof. reflexivity. Qed.

Lemma payouts_set_status id id' st s : payouts id (set_status id' st s) = payouts id s.
Proof. reflexivity. Qed.

Lemma payouts_credit id v s : payouts id (credit v s) = payouts id s.
Proof. reflexivity. Qed.

Lemma lookup_emit id e s : invoices (emit e s) !! id = invoices s !! id.
Proof. reflexivity. Qed.

Lemma lookup_debit id id' to v s : invoices (debit id' to v s) !! id = invoices s !! id.
Proof. reflexivity. Qed.

Lemma lookup_credit id v s : invoices (credit v s) !! id = invoices s !! id.
Proof. reflexivity. Qed.

Lemma invoices_at_emit id e s : invoices_at (emit e s) id = invoices_at s id.
Proof. reflexivity. Qed.

Lemma invoices_at_debit id id' to v s :
  invoices_at (debit id' to v s) id = invoices_at s id.
Proof. reflexivity. Qed.

Lemma invoices_at_credit id v s : invoices_at (credit v s) id = invoices_at s id.
Proof. reflexivity. Qed.

Create Rewrite HintDb ledger.
#[local] Hint Rewrite history_emit history_set_status history_debit history_credit
  payouts_emit payouts_set_status payouts_debit payouts_credit
  lookup_emit lookup_set_status lookup_debit lookup_credit
  invoices_at_emit invoices_at_debit invoices_at_credit
  invoices_at_set_status : ledger.

Lemma view_emit id e s :
  view id (emit e s) =
  (invoices s !! id,
   history id s ++ (if decide (event_id e = id) then [e] else []),
   payouts id s).
Proof. unfold view. rewrite history_emit. reflexivity. Qed.

Lemma view_emit_ne id e s : event_id e ≠ id → view id (emit e s) = view id s.
Proof.
  intros. rewrite view_emit, decide_False, app_nil_r by done. reflexivity.
Qed.

Lemma view_debit id id' to v s :
  view id (debit id' to v s) =
  (invoices s !! id, history id s,
   payouts id s ++ (if decide (id' = id) then [mkTransfer id' to v] else [])).
Proof. unfold view. rewrite payouts_debit. reflexivity. Qed.

Lemma view_debit_ne id id' to v s : id' ≠ id → view id (debit id' to v s) = view id s.
Proof.
  intros. rewrite view_debit, decide_False, app_nil_r by done. reflexivity.
Qed.

Lemma view_set_status id id' st s :
  view id (set_status id' st s) =
  (if decide (id' = id) then Some (with_status st (invoices_at s id'))
   else invoices s !! id,
   history id s, payouts id s).
Proof. unfold view. rewrite lookup_set_status. reflexivity. Qed.

Lemma view_set_status_ne id id' st s :
  id' ≠ id → view id (set_status id' st s) = view id s.
Proof. intros. rewrite view_set_status, decide_False by done. reflexivity. Qed.

Lemma view_credit id v s : view id (credit v s) = view id s.
Proof. reflexivity. Qed.

Lemma view_set_owner id o s : view id (set_owner o s) = view id s.
Proof. reflexivity. Qed.

Lemma view_create id s s' a f v d id' :
  createInvoice a f v d s = Ok (s', id') →
  view id s' =
  if decide (id' = id)
  then (Some (mkInvoice id a f v d CREATED),
        history id s ++ [InvoiceCreated id a f v d], payouts id s)
  else view id s.
Proof.
  intros (_ & _ & _ & _ & -> & ->)%createInvoice_Ok.
  rewrite view_emit. unfold view at 1. cbn [invoices store_invoice event_id].
  rewrite lookup_insert. case_decide as E.
  - subst id. reflexivity.
  - rewrite app_nil_r. reflexivity.
Qed.

Lemma view_status id s s' :
  view id s' = view id s → invoices_at s' id = invoices_at s id.
Proof. unfold view, invoices_at. intros [= -> _ _]. reflexivity. Qed.

(** ** Terminal invoices are frozen

    Once an invoice is PAID or CANCELLED no call changes anything the
    chain records about it, however deeply the call is nested. *)

Lemma payee_frozen k tid s1 s2 :
  payee_all (λ c, ∀ id s, stored_ok s → terminal (status (invoices_at s id)) →
                          view id (apply c s) = view id s) k →
  callee k s1 = Some s2 → stored_ok s1 → terminal (status (invoices_at s1 tid)) →
  view tid s2 = view tid s1.
Proof.
  intros Hk Hc Hs Ht.
  enough (stored_ok s2 ∧ view tid s2 = view tid s1) as [_ ?] by done.
  eapply (payee_preserves (λ s', stored_ok s' ∧ view tid s' = view tid s1));
    [|exact Hc|done].
  destruct k; [done|]. cbn in Hk |- *. eapply Forall_impl; [exact Hk|].
  intros c Hc' s' [Hs' Hv]. split; [by apply stored_ok_apply|].
  rewrite <- Hv. apply Hc'; [done|]. by rewrite (view_status _ _ _ Hv).
Qed.

Lemma frozen_apply c : ∀ id s,
  stored_ok s → terminal (status (invoices_at s id)) →
  view id (apply c s) = view id s.
Proof.
  induction c using Call_nested_ind; intros tid s Hs Ht; unfold apply;
    destruct (exec _ s) as [s'|e] eqn:E; cbn [commit]; try reflexivity;
    cbn [exec] in E.
  - unfold dropId in E.
    destruct (createInvoice _ _ _ _ _) as [[s1 id]|] eqn:E1; [|discriminate].
    injection E as <-. rewrite (view_create tid _ _ _ _ _ _ _ E1).
    apply createInvoice_Ok in E1 as (_ & _ & _ & _ & -> & _).
    case_decide as E; [|done]. subst tid.
    apply terminal_exists in Ht. specialize (Hs (_invoiceCounter s)).
    rewrite Ht in Hs. lia.
  - apply fundInvoice_Ok in E as (_ & _ & Hst & _ & ->).
    assert (id ≠ tid) by (intros ->; destruct Ht; congruence).
    by rewrite view_emit_ne, view_set_status_ne.
  - apply markInvoiceCompleted_Ok in E as (_ & _ & Hst & ->).
    assert (id ≠ tid) by (intros ->; destruct Ht; congruence).
    by rewrite view_emit_ne, view_set_status_ne.
  - apply releasePayment_Ok in E as (Hc%client_exists & _ & Hst & _ & s2 & Hk & ->).
    assert (id ≠ tid) by (intros ->; destruct Ht; congruence).
    rewrite view_emit_ne by done.
    set (s1 := debit _ _ _ _) in Hk.
    assert (view tid s1 = view tid s) as H1
      by (unfold s1; by rewrite view_debit_ne, view_set_status_ne).
    rewrite <- H1. apply (payee_frozen k); [done..| |].
    + apply stored_ok_debit, stored_ok_set_status; [by eexists|done].
    + by rewrite (view_status _ _ _ H1).
  - apply cancelInvoice_Ok in E as (_ & _ & Hst & ->).
    assert (id ≠ tid) by (intros ->; destruct Ht; congruence).
    by rewrite view_emit_ne, view_set_status_ne.
  - apply resolveDispute_Ok in E as (_ & Hc%client_exists & Hst & _ & s2 & Hk & ->).
    assert (id ≠ tid) by (intros ->; destruct Ht, Hst; congruence).
    set (s1 := debit _ _ _ _) in Hk.
    assert (view tid s1 = view tid s) as H1.
    { unfold s1, resolution. rewrite view_debit_ne by done.
      destruct b; by rewrite view_emit_ne, view_set_status_ne. }
    assert (view tid s2 = view tid s1) as H2.
    { apply (payee_frozen k); [done..| |].
      - apply stored_ok_debit, stored_ok_resolution; [by eexists|done].
      - by rewrite (view_status _ _ _ H1). }
    destruct b; [rewrite view_emit_ne by done|]; congruence.
  - apply transferOwnership_Ok in E as (_ & _ & ->). reflexivity.
  - injection E as <-. reflexivity.
Qed.

Lemma frozen_run cs : ∀ id s,
  stored_ok s → terminal (status (invoices_at s id)) →
  view id (run cs s) = view id s.
Proof.
  induction cs as [|c cs IH]; intros id s Hs Ht; [done|].
  rewrite run_cons.
  pose proof (frozen_apply c id s Hs Ht) as Hv.
  rewrite IH, Hv; [done|by apply stored_ok_apply|].
  by rewrite (view_status _ _ _ Hv).
Qed.

(** ** The audit invariant

    For each invoice, the status in storage, the events logged about it
    and the ether sent for it always fit together as [audit] lists. *)

Lemma audit_ok_view id s s' : view id s' = view id s → audit_ok id s → audit_ok id s'.
Proof. unfold audit_ok. by intros ->. Qed.

Lemma audit_ok_Some id s i :
  invoices s !! id = Some i → audit_ok id s →
  audit id (Some i, history id s, payouts id s).
Proof. unfold audit_ok, view. by intros ->. Qed.

Lemma payee_audit k id s1 s2 :
  payee_all (λ c, ∀ id s, stored_ok s → audit_ok id s → audit_ok id (apply c s)) k →
  callee k s1 = Some s2 → stored_ok s1 → audit_ok id s1 → audit_ok id s2.
Proof.
  intros Hk Hc Hs Ha.
  enough (stored_ok s2 ∧ audit_ok id s2) as [_ ?] by done.
  eapply (payee_preserves (λ s', stored_ok s' ∧ audit_ok id s')); [|exact Hc|done].
  destruct k; [done|]. cbn in Hk |- *. eapply Forall_impl; [exact Hk|].
  intros c Hc' s' [Hs' Ha']. split; [by apply stored_ok_apply|by apply Hc'].
Qed.

Lemma payee_frozen_view k id s1 s2 :
  callee k s1 = Some s2 → stored_ok s1 → terminal (status (invoices_at s1 id)) →
  view id s2 = view id s1.
Proof. intros (cs & -> & ->)%callee_Some. apply frozen_run. Qed.

Lemma audit_ok_apply c : ∀ id s,
  stored_ok s → audit_ok id s → audit_ok id (apply c s).
Proof.
  induction c using Call_nested_ind; intros tid s Hs Ha; unfold apply;
    destruct (exec _ s) as [s'|e] eqn:E; cbn [commit]; try assumption;
    cbn [exec] in E.
  - unfold dropId in E.
    destruct (createInvoice _ _ _ _ _) as [[s1 id]|] eqn:E1; [|discriminate].
    injection E as <-. unfold audit_ok. rewrite (view_create tid _ _ _ _ _ _ _ E1).
    apply createInvoice_Ok in E1 as (_ & _ & _ & _ & -> & _).
    case_decide as E; [|done]. subst tid.
    specialize (Hs (_invoiceCounter s)). unfold audit_ok, view in Ha.
    destruct (invoices s !! _invoiceCounter s); [lia|].
    destruct Ha as [-> ->]. by cbn.
  - apply fundInvoice_Ok in E as (Hc%client_exists & _ & Hst & -> & ->).
    destruct (decide (id = tid)) as [->|];
      [|by apply (audit_ok_view _ s); [rewrite view_emit_ne, view_set_status_ne|]].
    apply (audit_ok_Some _ _ _ Hc) in Ha. unfold audit_ok, view.
    autorewrite with ledger. cbn in Ha |- *.
    rewrite Hst in Ha. destruct Ha as [-> ->]. by rewrite !decide_True by done.
  - apply markInvoiceCompleted_Ok in E as (Hc%freelancer_exists & _ & Hst & ->).
    destruct (decide (id = tid)) as [->|];
      [|by apply (audit_ok_view _ s); [rewrite view_emit_ne, view_set_status_ne|]].
    apply (audit_ok_Some _ _ _ Hc) in Ha. unfold audit_ok, view.
    autorewrite with ledger. cbn in Ha |- *.
    rewrite Hst in Ha. destruct Ha as [-> ->]. by rewrite !decide_True by done.
  - apply releasePayment_Ok in E as (Hc%client_exists & _ & Hst & _ & s2 & Hk & ->).
    set (s1 := debit _ _ _ _) in Hk.
    assert (stored_ok s1) as Hs1
      by (apply stored_ok_debit, stored_ok_set_status; [by eexists|done]).
    destruct (decide (id = tid)) as [->|].
    + apply (audit_ok_Some _ _ _ Hc) in Ha. unfold audit_ok.
      rewrite view_emit, decide_True by done.
      assert (view tid s2 = view tid s1) as Hv.
      { apply (payee_frozen_view k); [done..|]. unfold s1.
        autorewrite with ledger. by left. }
      unfold view in Hv at 1. injection Hv as -> -> ->.
      unfold s1. autorewrite with ledger.
      rewrite ?lookup_insert_eq, ?decide_True by done.
      cbn in Ha |- *. rewrite Hst in Ha. destruct Ha as [-> ->]. cbn. auto.
    + apply (audit_ok_view _ s2); [by rewrite view_emit_ne|].
      apply (payee_audit k _ s1); [done..|].
      apply (audit_ok_view _ s); [|done].
      unfold s1. by rewrite view_debit_ne, view_set_status_ne.
  - apply cancelInvoice_Ok in E as (Hc%client_exists & _ & Hst & ->).
    destruct (decide (id = tid)) as [->|];
      [|by apply (audit_ok_view _ s); [rewrite view_emit_ne, view_set_status_ne|]].
    apply (audit_ok_Some _ _ _ Hc) in Ha. unfold audit_ok, view.
    autorewrite with ledger. cbn in Ha |- *.
    rewrite Hst in Ha. destruct Ha as [-> ->]. rewrite !decide_True by done.
    cbn. auto.
  - apply resolveDispute_Ok in E as (_ & Hc%client_exists & Hst & _ & s2 & Hk & ->).
    set (s1 := debit _ _ _ _) in Hk.
    assert (stored_ok s1) as Hs1
      by (apply stored_ok_debit, stored_ok_resolution; [by eexists|done]).
    destruct (decide (id = tid)) as [->|].
    + apply (audit_ok_Some _ _ _ Hc) in Ha.
      assert (view tid s2 = view tid s1) as Hv.
      { apply (payee_frozen_view k); [done..|]. unfold s1, resolution.
        destruct b; autorewrite with ledger; [by left|by right]. }
      assert (audit_ok tid (if b then emit (PaymentReleased tid
                (freelancer (invoices_at s tid)) (amount (invoices_at s tid))) s2
              else s2)) as Hgoal; [|by destruct b].
      unfold audit_ok, view.
      destruct b; autorewrite with ledger; rewrite ?decide_True by done;
        unfold view in Hv at 1; injection Hv as -> -> ->;
        unfold s1, resolution, resolution_payee;
        autorewrite with ledger;
        rewrite ?lookup_insert_eq, ?decide_True by done;
        cbn in Ha |- *;
        destruct Hst as [Hst|Hst]; rewrite Hst in Ha; destruct Ha as [-> ->];
        cbn; auto.
    + assert (audit_ok tid s2) as Ha2.
      { apply (payee_audit k _ s1); [done..|].
        apply (audit_ok_view _ s); [|done].
        unfold s1, resolution. rewrite view_debit_ne by done.
        destruct b; by rewrite view_emit_ne, view_set_status_ne. }
      destruct b; [|done]. apply (audit_ok_view _ s2); [by rewrite view_emit_ne|done].
  - apply transferOwnership_Ok in E as (_ & _ & ->). done.
  - injection E as <-. done.
Qed.

(** ** Clients are never the zero address *)

Lemma valid_sender c : valid_call c = true → msg_sender_of c ≠ 0.
Proof.
  destruct c; cbn [valid_call msg_sender_of];
    by intros [?%negb_true_iff%N.eqb_neq _]%andb_true_iff.
Qed.

Lemma valid_release a id cs :
  valid_call (ReleasePayment a id (Accepts cs)) = true → forallb valid_call cs = true.
Proof. cbn. by intros [_ ?]%andb_true_iff. Qed.

Lemma valid_resolve a id b cs :
  valid_call (ResolveDispute a id b (Accepts cs)) = true → forallb valid_call cs = true.
Proof. cbn. by intros [_ ?]%andb_true_iff. Qed.

Lemma run_preserves_valid (I : State → Prop) cs :
  Forall (λ c, valid_call c = true → ∀ s, I s → I (apply c s)) cs →
  forallb valid_call cs = true → ∀ s, I s → I (run cs s).
Proof.
  induction 1 as [|c cs Hc _ IH]; intros Hv s Hs; [exact Hs|].
  cbn in Hv. apply andb_true_iff in Hv as [Hv1 Hv2].
  rewrite run_cons. apply IH; [done|]. by apply Hc.
Qed.

Lemma clients_ok_frame s s' : invoices s' = invoices s → clients_ok s → clients_ok s'.
Proof. unfold clients_ok. by intros ->. Qed.

Lemma clients_ok_set_status id st s :
  is_Some (invoices s !! id) → clients_ok s → clients_ok (set_status id st s).
Proof.
  intros [j Hj] Hs id' i. rewrite lookup_set_status. case_decide; [|apply Hs].
  intros [= <-]. rewrite (invoices_at_lookup _ _ _ Hj). exact (Hs id j Hj).
Qed.

Lemma clients_ok_resolution id b s :
  is_Some (invoices s !! id) → clients_ok s → clients_ok (resolution id b s).
Proof.
  intros. unfold resolution.
  destruct b;
    (eapply clients_ok_frame; [|by apply (clients_ok_set_status id)]; done).
Qed.

Lemma clients_ok_apply c :
  valid_call c = true → ∀ s, clients_ok s → clients_ok (apply c s).
Proof.
  induction c using Call_nested_ind; intros Hv s Hs; unfold apply;
    destruct (exec _ s) as [s'|e] eqn:E; cbn [commit]; try assumption;
    cbn [exec] in E.
  - unfold dropId in E.
    destruct (createInvoice _ _ _ _ _) as [[s1 id]|] eqn:E1; [|discriminate].
    injection E as <-.
    apply createInvoice_Ok in E1 as (_ & _ & _ & _ & -> & ->).
    intros id' i. cbn. rewrite lookup_insert. case_decide; [|apply Hs].
    intros [= <-]. cbn. by apply valid_sender in Hv.
  - apply fundInvoice_Ok in E as (Hc%client_exists & _ & _ & _ & ->).
    apply (clients_ok_frame (set_status id FUNDED (credit v s))); [done|].
    apply clients_ok_set_status; [by eexists|done].
  - apply markInvoiceCompleted_Ok in E as (Hc%freelancer_exists & _ & _ & ->).
    apply (clients_ok_frame (set_status id COMPLETED s)); [done|].
    apply clients_ok_set_status; [by eexists|done].
  - apply releasePayment_Ok in E as (Hc%client_exists & _ & _ & _ & s2 & Hk & ->).
    apply (clients_ok_frame s2); [done|].
    apply callee_Some in Hk as (cs & -> & ->).
    apply run_preserves_valid; [exact H|by apply valid_release in Hv|].
    apply (clients_ok_frame (set_status id PAID s)); [done|].
    apply clients_ok_set_status; [by eexists|done].
  - apply cancelInvoice_Ok in E as (Hc%client_exists & _ & _ & ->).
    apply (clients_ok_frame (set_status id CANCELLED s)); [done|].
    apply clients_ok_set_status; [by eexists|done].
  - apply resolveDispute_Ok in E as (_ & Hc%client_exists & _ & _ & s2 & Hk & ->).
    assert (clients_ok s2) as Hs2.
    { apply callee_Some in Hk as (cs & -> & ->).
      apply run_preserves_valid; [exact H|by apply valid_resolve in Hv|].
      apply (clients_ok_frame (resolution id b s)); [done|].
      apply clients_ok_resolution; [by eexists|done]. }
    destruct b; [|done]. by apply (clients_ok_frame s2).
  - apply transferOwnership_Ok in E as (_ & _ & ->). done.
  - injection E as <-. done.
Qed.

(** ** Ids are handed out in order *)

Lemma first_ids_S n : first_ids (S n) = first_ids n ++ [N.of_nat n].
Proof. unfold first_ids. by rewrite seq_S, map_app. Qed.

Lemma created_ids_emit e s :
  created_ids (events (emit e s)) =
  created_ids (events s) ++
  match e with InvoiceCreated id _ _ _ _ => [id] | _ => [] end.
Proof. unfold created_ids. cbn [events emit]. rewrite omap_app. by destruct e. Qed.

Lemma ids_ok_emit e s :
  match e with InvoiceCreated _ _ _ _ _ => False | _ => True end →
  ids_ok s → ids_ok (emit e s).
Proof.
  unfold ids_ok. rewrite created_ids_emit.
  destruct e; [done|..]; intros _; by rewrite app_nil_r.
Qed.

Lemma ids_ok_apply c s : ids_ok s → ids_ok (apply c s).
Proof.
  revert s. induction c using Call_nested_ind; intros s Hs; unfold apply;
    destruct (exec _ s) as [s'|e] eqn:E; cbn [commit]; try assumption;
    cbn [exec] in E.
  - unfold dropId in E.
    destruct (createInvoice _ _ _ _ _) as [[s1 id]|] eqn:E1; [|discriminate].
    injection E as <-.
    apply createInvoice_Ok in E1 as (_ & _ & _ & _ & -> & ->).
    unfold ids_ok in *. rewrite created_ids_emit.
    cbn [events store_invoice set_counter _invoiceCounter emit].
    replace (N.to_nat (_invoiceCounter s + 1)) with (S (N.to_nat (_invoiceCounter s)))
      by lia.
    by rewrite first_ids_S, N2Nat.id, Hs.
  - apply fundInvoice_Ok in E as (_ & _ & _ & _ & ->). by apply ids_ok_emit.
  - apply markInvoiceCompleted_Ok in E as (_ & _ & _ & ->). by apply ids_ok_emit.
  - apply releasePayment_Ok in E as (_ & _ & _ & _ & s2 & Hk & ->).
    apply ids_ok_emit; [done|]. eapply payee_preserves; [exact H|exact Hk|done].
  - apply cancelInvoice_Ok in E as (_ & _ & _ & ->). by apply ids_ok_emit.
  - apply resolveDispute_Ok in E as (_ & _ & _ & _ & s2 & Hk & ->).
    assert (ids_ok s2) as Hs2.
    { eapply payee_preserves; [exact H|exact Hk|].
      unfold resolution. destruct b; by apply ids_ok_emit. }
    destruct b; [by apply ids_ok_emit|done].
  - apply transferOwnership_Ok in E as (_ & _ & ->). done.
  - injection E as <-. done.
Qed.

(** ** Reachable states *)

Lemma constructor_Ok o s0 :
  constructor o = Ok s0 ↔ o ≠ 0 ∧ s0 = mkState ∅ 0 o 0 [] [].
Proof.
  unfold constructor. destruct (N.eqb_spec o 0); split.
  - discriminate.
  - tauto.
  - by intros [= <-].
  - by intros [_ ->].
Qed.

Lemma reachable_run cs s :
  reachable s → forallb valid_call cs = true → reachable (run cs s).
Proof.
  intros (o & s0 & txs & H0 & Hv & ->) Hcs. exists o, s0, (txs ++ cs).
  split; [done|]. split; [|by rewrite run_app].
  rewrite forallb_app. by rewrite Hv, Hcs.
Qed.

(** A property of the freshly constructed ledger that every valid call
    keeps holds in all reachable states. *)
Lemma reachable_ind (I : State → Prop) :
  (∀ o, o ≠ 0 → I (mkState ∅ 0 o 0 [] [])) →
  (∀ c s, valid_call c = true → I s → I (apply c s)) →
  ∀ s, reachable s → I s.
Proof.
  intros Hinit Hstep s (o & s0 & txs & [Ho ->]%constructor_Ok & Hv & ->).
  apply run_preserves_valid; [|done|by apply Hinit].
  apply Forall_forall. intros c _ Hc s. by apply Hstep.
Qed.

Lemma reachable_stored_ok s : reachable s → stored_ok s.
Proof.
  apply reachable_ind.
  - intros o _ id. cbn. rewrite lookup_empty. lia.
  - intros c s' _. apply stored_ok_apply.
Qed.

Lemma reachable_clients_ok s : reachable s → clients_ok s.
Proof.
  apply reachable_ind.
  - intros o _ id i. cbn. by rewrite lookup_empty.
  - intros c s' Hv. by apply clients_ok_apply.
Qed.

Lemma reachable_audit_ok s id : reachable s → audit_ok id s.
Proof.
  intros Hr. enough (stored_ok s ∧ audit_ok id s) as [_ ?] by done.
  revert s Hr. apply reachable_ind.
  - intros o _. split.
    + intros id'. cbn. rewrite lookup_empty. lia.
    + unfold audit_ok, view. cbn. by rewrite lookup_empty.
  - intros c s _ [Hs Ha]. split; [by apply stored_ok_apply|by apply audit_ok_apply].
Qed.

Lemma reachable_ids_ok s : reachable s → ids_ok s.
Proof.
  apply reachable_ind.
  - by intros o _.
  - intros c s' _. apply ids_ok_apply.
Qed.

(** ** Facts shared by the theorems below *)

Lemma reachable_fresh_ledger : reachable fresh_ledger.
Proof. exists 9, fresh_ledger, []. by repeat split. Qed.

Lemma reachable_created_ledger : reachable created_ledger.
Proof. by apply reachable_run; [apply reachable_fresh_ledger|]. Qed.

Lemma reachable_completed_ledger : reachable completed_ledger.
Proof. by apply reachable_run; [apply reachable_created_ledger|]. Qed.

Lemma reachable_paid_ledger : reachable paid_ledger.
Proof. by apply reachable_run; [apply reachable_completed_ledger|]. Qed.

Lemma reverted_unchanged c s e : exec c s = Reverted e → reverts_with c s e.
Proof. intros E. split; [done|]. unfold apply. by rewrite E. Qed.

Lemma terminal_rejects c s id :
  transition_on c = Some id → terminal (status (invoices_at s id)) →
  ∃ e, exec c s = Reverted e.
Proof.
  intros Hc Ht. destruct (exec c s) as [s'|e] eqn:E; [exfalso|by eexists].
  destruct c; cbn in Hc; try discriminate; injection Hc as ->; cbn [exec] in E.
  - apply fundInvoice_Ok in E as (_ & _ & Hst & _). destruct Ht; congruence.
  - apply markInvoiceCompleted_Ok in E as (_ & _ & Hst & _). destruct Ht; congruence.
  - apply releasePayment_Ok in E as (_ & _ & Hst & _). destruct Ht; congruence.
  - apply cancelInvoice_Ok in E as (_ & _ & Hst & _). destruct Ht; congruence.
  - apply resolveDispute_Ok in E as (_ & _ & Hst & _). destruct Ht, Hst; congruence.
Qed.

(** ** Ids returned by a run of [createInvoice] calls *)

Lemma createAll_counter reqs : ∀ s s' ids,
  ids_ok s → createAll reqs s = Ok (s', ids) →
  ids_ok s' ∧
  ids = map (λ k, _invoiceCounter s + N.of_nat k) (seq 0 (length reqs)) ∧
  _invoiceCounter s' = _invoiceCounter s + N.of_nat (length reqs).
Proof.
  induction reqs as [|[[[a f] v] d] reqs IH]; intros s s' ids Hs E; cbn in E.
  - injection E as <- <-. cbn. split; [done|]. split; [done|lia].
  - destruct (createInvoice a f v d s) as [[s1 id]|] eqn:E1; [|discriminate].
    destruct (createAll reqs s1) as [[s2 ids']|] eqn:E2; [|discriminate].
    injection E as <- <-.
    assert (ids_ok s1) as Hs1.
    { pose proof (ids_ok_apply (CreateInvoice a f v d) s Hs) as H.
      unfold apply in H. cbn [exec] in H. by rewrite E1 in H. }
    apply createInvoice_Ok in E1 as (_ & _ & _ & _ & -> & ->).
    destruct (IH _ _ _ Hs1 E2) as (Hs2 & -> & ->).
    cbn [_invoiceCounter emit store_invoice set_counter length].
    split; [done|]. split; [|lia].
    cbn [seq map]. f_equal; [lia|].
    rewrite <- seq_shift, map_map. apply map_ext. intros k. lia.
Qed.

Lemma ids_ok_run cs s : ids_ok s → ids_ok (run cs s).
Proof.
  apply (run_preserves ids_ok). apply Forall_forall. intros c _ ?.
  apply ids_ok_apply.
Qed.

(** ** Invoices persist, and only their status changes *)

Lemma with_status_same i : with_status (status i) i = i.
Proof. by destruct i. Qed.

Lemma keeps_frame id i s s' : invoices s' = invoices s → keeps id i s → keeps id i s'.
Proof. unfold keeps. by intros ->. Qed.

Lemma keeps_set_status id i id' st s : keeps id i s → keeps id i (set_status id' st s).
Proof.
  intros [st' Hi]. unfold keeps. rewrite lookup_set_status. case_decide; [subst|by eauto].
  rewrite (invoices_at_lookup _ _ _ Hi). by eexists.
Qed.

Lemma keeps_resolution id i id' b s : keeps id i s → keeps id i (resolution id' b s).
Proof.
  intros. unfold resolution.
  destruct b; (eapply keeps_frame; [|by apply keeps_set_status]; done).
Qed.

Lemma keeps_apply c id i : ∀ s,
  stored_ok s ∧ keeps id i s → stored_ok (apply c s) ∧ keeps id i (apply c s).
Proof.
  induction c using Call_nested_ind; intros s [Hs Hi];
    (split; [by apply stored_ok_apply|]); unfold apply;
    destruct (exec _ s) as [s'|e] eqn:E; cbn [commit]; try assumption;
    cbn [exec] in E.
  - unfold dropId in E.
    destruct (createInvoice _ _ _ _ _) as [[s1 id1]|] eqn:E1; [|discriminate].
    injection E as <-.
    apply createInvoice_Ok in E1 as (_ & _ & _ & _ & -> & ->).
    destruct Hi as [st Hi]. exists st. cbn. rewrite lookup_insert_ne; [done|].
    intros <-. specialize (Hs (_invoiceCounter s)). rewrite Hi in Hs. lia.
  - apply fundInvoice_Ok in E as (_ & _ & _ & _ & ->).
    apply (keeps_frame _ _ (set_status id0 FUNDED s)); [done|].
    by apply keeps_set_status.
  - apply markInvoiceCompleted_Ok in E as (_ & _ & _ & ->).
    apply (keeps_frame _ _ (set_status id0 COMPLETED s)); [done|].
    by apply keeps_set_status.
  - apply releasePayment_Ok in E as (Hc%client_exists & _ & _ & _ & s2 & Hk & ->).
    apply (keeps_frame _ _ s2); [done|].
    enough (stored_ok s2 ∧ keeps id i s2) as [_ ?] by done.
    apply (payee_preserves (λ s', stored_ok s' ∧ keeps id i s') k _ _ H Hk). split.
    + apply stored_ok_debit, stored_ok_set_status; [by eexists|done].
    + apply (keeps_frame _ _ (set_status id0 PAID s)); [done|].
      by apply keeps_set_status.
  - apply cancelInvoice_Ok in E as (_ & _ & _ & ->).
    apply (keeps_frame _ _ (set_status id0 CANCELLED s)); [done|].
    by apply keeps_set_status.
  - apply resolveDispute_Ok in E as (_ & Hc%client_exists & _ & _ & s2 & Hk & ->).
    assert (keeps id i s2) as Hi2.
    { enough (stored_ok s2 ∧ keeps id i s2) as [_ ?] by done.
      apply (payee_preserves (λ s', stored_ok s' ∧ keeps id i s') k _ _ H Hk). split.
      + apply stored_ok_debit, stored_ok_resolution; [by eexists|done].
      + apply (keeps_frame _ _ (resolution id0 b s)); [done|].
        by apply keeps_resolution. }
    destruct b; [|done]. by apply (keeps_frame _ _ s2).
  - apply transferOwnership_Ok in E as (_ & _ & ->). done.
  - injection E as <-. done.
Qed.

(** ** Solvency *)

Lemma held_insert_None (m : gmap N Invoice) id i :
  m !! id = None →
  map_fold add_held 0 (<[id := i]> m)
  = held_by i + map_fold add_held 0 m.
Proof.
  intros. rewrite map_fold_insert_L; [done| |done]. unfold add_held. intros. lia.
Qed.

Lemma held_lookup (m : gmap N Invoice) id j :
  m !! id = Some j →
  map_fold add_held 0 m
  = held_by j + map_fold add_held 0 (delete id m).
Proof.
  intros. rewrite (map_fold_delete_L add_held 0 id j); [done| |done].
  unfold add_held. intros. lia.
Qed.

Lemma held_insert_Some (m : gmap N Invoice) id i j :
  m !! id = Some j →
  map_fold add_held 0 (<[id := i]> m) + held_by j
  = held_by i + map_fold add_held 0 m.
Proof.
  intros Hj. rewrite <- insert_delete_eq.
  rewrite held_insert_None by apply lookup_delete_eq.
  rewrite (held_lookup m id j Hj). lia.
Qed.

Lemma held_set_status id st s :
  invoices s !! id = Some (invoices_at s id) →
  held (set_status id st s) + held_by (invoices_at s id)
  = held_by (with_status st (invoices_at s id)) + held s.
Proof. intros. by apply held_insert_Some. Qed.

Lemma held_by_le_held s id i : invoices s !! id = Some i → held_by i ≤ held s.
Proof. intros Hi. unfold held. rewrite (held_lookup _ _ _ Hi). lia. Qed.

Lemma solvent_apply c : ∀ s,
  stored_ok s ∧ solvent s → stored_ok (apply c s) ∧ solvent (apply c s).
Proof.
  induction c using Call_nested_ind; intros s [Hs Hb];
    (split; [by apply stored_ok_apply|]); unfold apply;
    destruct (exec _ s) as [s'|e] eqn:E; cbn [commit]; try assumption;
    cbn [exec] in E; unfold solvent in *.
  - unfold dropId in E.
    destruct (createInvoice _ _ _ _ _) as [[s1 id]|] eqn:E1; [|discriminate].
    injection E as <-.
    apply createInvoice_Ok in E1 as (_ & _ & _ & _ & -> & ->).
    specialize (Hs (_invoiceCounter s)).
    destruct (invoices s !! _invoiceCounter s) eqn:Hnone; [lia|].
    unfold held. cbn [invoices balance emit store_invoice set_counter].
    rewrite held_insert_None by done. exact Hb.
  - apply fundInvoice_Ok in E as (Hex%client_exists & _ & Hst & -> & ->).
    pose proof (held_set_status id FUNDED (credit (amount (invoices_at s id)) s) Hex)
      as Hh.
    rewrite invoices_at_credit in Hh. unfold held_by in Hh at 1 2.
    rewrite Hst in Hh. cbn [status with_status amount] in Hh.
    change (held (credit ?v s)) with (held s) in Hh.
    change (held (emit ?e ?s)) with (held s).
    cbn [balance emit set_status store_invoice credit]. lia.
  - apply markInvoiceCompleted_Ok in E as (Hex%freelancer_exists & _ & Hst & ->).
    pose proof (held_set_status id COMPLETED s Hex) as Hh.
    unfold held_by in Hh at 1 2. rewrite Hst in Hh.
    cbn [status with_status amount] in Hh.
    change (held (emit ?e ?s)) with (held s).
    cbn [balance emit set_status store_invoice]. lia.
  - apply releasePayment_Ok in E as (Hex%client_exists & _ & Hst & Hle & s2 & Hk & ->).
    change (held (emit ?e ?s)) with (held s). cbn [balance emit].
    enough (stored_ok s2 ∧ held s2 ≤ balance s2) as [_ ?] by done.
    apply (payee_preserves (λ s', stored_ok s' ∧ held s' ≤ balance s') k _ _ H Hk).
    split; [apply stored_ok_debit, stored_ok_set_status; [by eexists|done]|].
    pose proof (held_set_status id PAID s Hex) as Hh.
    unfold held_by in Hh at 1 2. rewrite Hst in Hh.
    cbn [status with_status amount] in Hh.
    change (held (debit ?i ?t ?v ?s)) with (held s).
    cbn [balance debit set_status store_invoice]. lia.
  - apply cancelInvoice_Ok in E as (Hex%client_exists & _ & Hst & ->).
    pose proof (held_set_status id CANCELLED s Hex) as Hh.
    unfold held_by in Hh at 1 2. rewrite Hst in Hh.
    cbn [status with_status amount] in Hh.
    change (held (emit ?e ?s)) with (held s).
    cbn [balance emit set_status store_invoice]. lia.
  - apply resolveDispute_Ok in E as (_ & Hex%client_exists & Hst & Hle & s2 & Hk & ->).
    assert (stored_ok s2 ∧ held s2 ≤ balance s2) as [_ H2].
    { apply (payee_preserves (λ s', stored_ok s' ∧ held s' ≤ balance s') k _ _ H Hk).
      split; [apply stored_ok_debit, stored_ok_resolution; [by eexists|done]|].
      change (held (debit ?i ?t ?v ?s)) with (held s).
      unfold resolution. destruct b;
        change (held (emit ?e ?s)) with (held s);
        cbn [balance debit emit set_status store_invoice].
      - pose proof (held_set_status id PAID s Hex) as Hh.
        unfold held_by in Hh at 1 2. cbn [status with_status amount] in Hh.
        destruct Hst as [Hst|Hst]; rewrite Hst in Hh; lia.
      - pose proof (held_set_status id CANCELLED s Hex) as Hh.
        unfold held_by in Hh at 1 2. cbn [status with_status amount] in Hh.
        destruct Hst as [Hst|Hst]; rewrite Hst in Hh; lia. }
    by destruct b.
  - apply transferOwnership_Ok in E as (_ & _ & ->). done.
  - injection E as <-. change (held (credit ?v s)) with (held s).
    cbn [balance credit]. lia.
Qed.

Lemma reachable_solvent s : reachable s → solvent s.
Proof.
  intros Hr. enough (stored_ok s ∧ solvent s) as [_ ?] by done.
  revert s Hr. apply reachable_ind.
  - intros o _. split.
    + intros id'. cbn. rewrite lookup_empty. lia.
    + unfold solvent, held. cbn. by rewrite map_fold_empty.
  - intros c s _. apply solvent_apply.
Qed.

(** ** Statuses only move forward *)

Lemma status_advances_refl a : status_advances a a.
Proof. by left. Qed.

Lemma status_advances_trans a b c :
  status_advances a b → status_advances b c → status_advances a c.
Proof. intros [->|?] [->|?]; unfold status_advances; auto. right. lia. Qed.

Lemma advances_apply c id : ∀ s,
  stored_ok s →
  status_advances (status (invoices_at s id)) (status (invoices_at (apply c s) id)).
Proof.
  assert (∀ k s1 s2,
    payee_all (λ c, ∀ s, stored_ok s →
      status_advances (status (invoices_at s id))
        (status (invoices_at (apply c s) id))) k →
    callee k s1 = Some s2 → stored_ok s1 →
    status_advances (status (invoices_at s1 id)) (status (invoices_at s2 id)))
    as Hpayee.
  { intros k s1 s2 Hk (cs & -> & ->)%callee_Some. cbn in Hk. revert s1.
    induction Hk as [|c' cs Hc _ IH]; intros s1 Hs1;
      [apply status_advances_refl|].
    rewrite run_cons. eapply status_advances_trans; [by apply Hc|].
    apply IH. by apply stored_ok_apply. }
  induction c using Call_nested_ind; intros s Hs; unfold apply;
    destruct (exec _ s) as [s'|e] eqn:E; cbn [commit];
    try apply status_advances_refl; cbn [exec] in E.
  - unfold dropId in E.
    destruct (createInvoice _ _ _ _ _) as [[s1 id1]|] eqn:E1; [|discriminate].
    injection E as <-.
    apply createInvoice_Ok in E1 as (_ & _ & _ & _ & -> & ->).
    unfold invoices_at at 2. cbn [invoices emit store_invoice]. rewrite lookup_insert.
    case_decide as Hid; [|apply status_advances_refl]. subst id.
    specialize (Hs (_invoiceCounter s)). unfold invoices_at.
    destruct (invoices s !! _invoiceCounter s); [lia|]. by left.
  - apply fundInvoice_Ok in E as (_ & _ & Hst & _ & ->).
    rewrite invoices_at_emit. destruct (decide (id0 = id)) as [->|].
    + rewrite invoices_at_set_status, invoices_at_credit, Hst. right. cbn. lia.
    + rewrite invoices_at_set_status_ne by done. apply status_advances_refl.
  - apply markInvoiceCompleted_Ok in E as (_ & _ & Hst & ->).
    rewrite invoices_at_emit. destruct (decide (id0 = id)) as [->|].
    + rewrite invoices_at_set_status, Hst. right. cbn. lia.
    + rewrite invoices_at_set_status_ne by done. apply status_advances_refl.
  - apply releasePayment_Ok in E as (Hex%client_exists & _ & Hst & _ & s2 & Hk & ->).
    rewrite invoices_at_emit.
    eapply status_advances_trans; [|eapply Hpayee; [exact H|exact Hk|]].
    + rewrite invoices_at_debit. destruct (decide (id0 = id)) as [->|].
      * rewrite invoices_at_set_status, Hst. right. cbn. lia.
      * rewrite invoices_at_set_status_ne by done. apply status_advances_refl.
    + apply stored_ok_debit, stored_ok_set_status; [by eexists|done].
  - apply cancelInvoice_Ok in E as (_ & _ & Hst & ->).
    rewrite invoices_at_emit. destruct (decide (id0 = id)) as [->|].
    + rewrite invoices_at_set_status, Hst. right. cbn. lia.
    + rewrite invoices_at_set_status_ne by done. apply status_advances_refl.
  - apply resolveDispute_Ok in E as (_ & Hex%client_exists & Hst & _ & s2 & Hk & ->).
    assert (status_advances (status (invoices_at s id)) (status (invoices_at s2 id)))
      as H2.
    { eapply status_advances_trans; [|eapply Hpayee; [exact H|exact Hk|]].
      + rewrite invoices_at_debit. unfold resolution.
        destruct b; rewrite invoices_at_emit;
          (destruct (decide (id0 = id)) as [->|];
           [rewrite invoices_at_set_status; right;
            destruct Hst as [-> | ->]; cbn; lia
           |rewrite invoices_at_set_status_ne by done; apply status_advances_refl]).
      + apply stored_ok_debit, stored_ok_resolution; [by eexists|done]. }
    by destruct b.
  - apply transferOwnership_Ok in E as (_ & _ & ->). apply status_advances_refl.
  - injection E as <-. apply status_advances_refl.
Qed.

Lemma advances_run txs id : ∀ s,
  stored_ok s →
  status_advances (status (invoices_at s id)) (status (invoices_at (run txs s) id)).
Proof.
  induction txs as [|c txs IH]; intros s Hs; [apply status_advances_refl|].
  rewrite run_cons. eapply status_advances_trans; [by apply advances_apply|].
  apply IH. by apply stored_ok_apply.
Qed.

(** ** Ether above the escrow holdings stays in the contract *)

Lemma surplus_apply (k : N) c : ∀ s,
  stored_ok s ∧ held s + k ≤ balance s →
  stored_ok (apply c s) ∧ held (apply c s) + k ≤ balance (apply c s).
Proof.
  induction c using Call_nested_ind; intros s [Hs Hb];
    (split; [by apply stored_ok_apply|]); unfold apply;
    destruct (exec _ s) as [s'|e] eqn:E; cbn [commit]; try assumption;
    cbn [exec] in E.
  - unfold dropId in E.
    destruct (createInvoice _ _ _ _ _) as [[s1 id]|] eqn:E1; [|discriminate].
    injection E as <-.
    apply createInvoice_Ok in E1 as (_ & _ & _ & _ & -> & ->).
    specialize (Hs (_invoiceCounter s)).
    destruct (invoices s !! _invoiceCounter s) eqn:Hnone; [lia|].
    unfold held. cbn [invoices balance emit store_invoice set_counter].
    rewrite held_insert_None by done. exact Hb.
  - apply fundInvoice_Ok in E as (Hex%client_exists & _ & Hst & -> & ->).
    pose proof (held_set_status id FUNDED (credit (amount (invoices_at s id)) s) Hex)
      as Hh.
    rewrite invoices_at_credit in Hh. unfold held_by in Hh at 1 2.
    rewrite Hst in Hh. cbn [status with_status amount] in Hh.
    change (held (credit ?v s)) with (held s) in Hh.
    change (held (emit ?e ?s)) with (held s).
    cbn [balance emit set_status store_invoice credit]. lia.
  - apply markInvoiceCompleted_Ok in E as (Hex%freelancer_exists & _ & Hst & ->).
    pose proof (held_set_status id COMPLETED s Hex) as Hh.
    unfold held_by in Hh at 1 2. rewrite Hst in Hh.
    cbn [status with_status amount] in Hh.
    change (held (emit ?e ?s)) with (held s).
    cbn [balance emit set_status store_invoice]. lia.
  - apply releasePayment_Ok in E as (Hex%client_exists & _ & Hst & Hle & s2 & Hk & ->).
    change (held (emit ?e ?s)) with (held s). cbn [balance emit].
    enough (stored_ok s2 ∧ held s2 + k ≤ balance s2) as [_ ?] by done.
    apply (payee_preserves (λ s', stored_ok s' ∧ held s' + k ≤ balance s') k0 _ _ H Hk).
    split; [apply stored_ok_debit, stored_ok_set_status; [by eexists|done]|].
    pose proof (held_set_status id PAID s Hex) as Hh.
    unfold held_by in Hh at 1 2. rewrite Hst in Hh.
    cbn [status with_status amount] in Hh.
    change (held (debit ?i ?t ?v ?s)) with (held s).
    cbn [balance debit set_status store_invoice]. lia.
  - apply cancelInvoice_Ok in E as (Hex%client_exists & _ & Hst & ->).
    pose proof (held_set_status id CANCELLED s Hex) as Hh.
    unfold held_by in Hh at 1 2. rewrite Hst in Hh.
    cbn [status with_status amount] in Hh.
    change (held (emit ?e ?s)) with (held s).
    cbn [balance emit set_status store_invoice]. lia.
  - apply resolveDispute_Ok in E as (_ & Hex%client_exists & Hst & Hle & s2 & Hk & ->).
    assert (stored_ok s2 ∧ held s2 + k ≤ balance s2) as [_ H2].
    { apply (payee_preserves (λ s', stored_ok s' ∧ held s' + k ≤ balance s') k0 _ _ H Hk).
      split; [apply stored_ok_debit, stored_ok_resolution; [by eexists|done]|].
      change (held (debit ?i ?t ?v ?s)) with (held s).
      unfold resolution. destruct b;
        change (held (emit ?e ?s)) with (held s);
        cbn [balance debit emit set_status store_invoice].
      - pose proof (held_set_status id PAID s Hex) as Hh.
        unfold held_by in Hh at 1 2. cbn [status with_status amount] in Hh.
        destruct Hst as [Hst|Hst]; rewrite Hst in Hh; lia.
      - pose proof (held_set_status id CANCELLED s Hex) as Hh.
        unfold held_by in Hh at 1 2. cbn [status with_status amount] in Hh.
        destruct Hst as [Hst|Hst]; rewrite Hst in Hh; lia. }
    by destruct b.
  - apply transferOwnership_Ok in E as (_ & _ & ->). done.
  - injection E as <-. change (held (credit ?v s)) with (held s).
    cbn [balance credit]. lia.
Qed.

Lemma surplus_run (k : N) txs : ∀ s,
  stored_ok s ∧ held s + k ≤ balance s →
  stored_ok (run txs s) ∧ held (run txs s) + k ≤ balance (run txs s).
Proof.
  apply (run_preserves (λ s, stored_ok s ∧ held s + k ≤ balance s)).
  apply Forall_forall. intros c _. apply surplus_apply.
Qed.

(** ** The API server *)

Lemma keeps_run txs id i s :
  stored_ok s → keeps id i s → stored_ok (run txs s) ∧ keeps id i (run txs s).
Proof.
  intros Hs Hk.
  apply (run_preserves (λ s', stored_ok s' ∧ keeps id i s')); [|done].
  apply Forall_forall. intros c _. apply keeps_apply.
Qed.

(** An invoice of a reachable ledger is still there after any further
    transactions, changed in its status at most. *)
Lemma invoice_persists txs id s :
  reachable s → id < _invoiceCounter s →
  client (invoices_at s id) ≠ 0 ∧
  invoices s !! id = Some (invoices_at s id) ∧
  invoices_at (run txs s) id
  = with_status (status (invoices_at (run txs s) id)) (invoices_at s id).
Proof.
  intros Hr Hlt.
  pose proof (reachable_stored_ok s Hr) as Hs.
  pose proof (Hs id) as Hid.
  destruct (invoices s !! id) as [i|] eqn:Hi; [|lia].
  rewrite (invoices_at_lookup _ _ _ Hi).
  split; [by apply (reachable_clients_ok s Hr id)|]. split; [done|].
  destruct (keeps_run txs id i s Hs) as [_ [st Hk]].
  { exists (status i). by rewrite with_status_same. }
  by rewrite (invoices_at_lookup _ _ _ Hk).
Qed.

Lemma getInvoice_below s id :
  reachable s → id < _invoiceCounter s →
  getInvoice id s = Ok (invoices_at s id) ∧
  getInvoiceStatus id s = Ok (status (invoices_at s id)) ∧
  invoiceId (invoices_at s id) = id.
Proof.
  intros Hr Hlt.
  destruct (invoice_persists [] id s Hr Hlt) as (Hc & Hi & _).
  pose proof (reachable_stored_ok s Hr id) as Hs. rewrite Hi in Hs.
  apply N.eqb_neq in Hc. unfold getInvoice, getInvoiceStatus, require.
  rewrite Hc. cbn. tauto.
Qed.

Lemma getInvoice_above s id :
  reachable s → _invoiceCounter s ≤ id →
  getInvoice id s = Reverted (Require "InvoiceEscrow: invoice does not exist") ∧
  getInvoiceStatus id s = Reverted (Require "InvoiceEscrow: invoice does not exist").
Proof.
  intros Hr Hge.
  pose proof (reachable_stored_ok s Hr id) as Hs.
  destruct (invoices s !! id) as [i|] eqn:Hi; [lia|].
  unfold getInvoice, getInvoiceStatus. by rewrite (invoices_at_None _ _ Hi).
Qed.

Lemma statusName_ordinal st : statusName (InvoiceStatus_ordinal st) = InvoiceStatus_name st.
Proof. by destruct st. Qed.

(** What [fundInvoice] answers when the amount of an existing invoice
    is sent with it. *)
Lemma fund_exact a id s :
  client (invoices_at s id) ≠ 0 →
  exec (FundInvoice a (amount (invoices_at s id)) id) s
  = if client (invoices_at s id) =? a then
      if InvoiceStatus_eqb (status (invoices_at s id)) CREATED
      then Ok (emit (InvoiceFunded id (amount (invoices_at s id)))
                 (set_status id FUNDED (credit (amount (invoices_at s id)) s)))
      else Reverted (Require "InvoiceEscrow: invoice must be in CREATED status")
    else Reverted (Require "InvoiceEscrow: only client can fund invoice").
Proof.
  intros Hc%N.eqb_neq. cbn [exec]. unfold fundInvoice. rewrite invoices_at_credit.
  rewrite require_true by (by rewrite Hc).
  destruct (_ =? a); [|done]. rewrite require_true by done.
  destruct (InvoiceStatus_eqb _ _); [|done].
  by rewrite !require_true by (by rewrite ?N.eqb_refl).
Qed.

(** The same, for an invoice read on an earlier state of the ledger. *)
Lemma fund_later a id txs s :
  reachable s → id < _invoiceCounter s →
  exec (FundInvoice a (amount (invoices_at s id)) id) (run txs s)
  = if client (invoices_at s id) =? a then
      if InvoiceStatus_eqb (status (invoices_at (run txs s) id)) CREATED
      then Ok (emit (InvoiceFunded id (amount (invoices_at s id)))
                 (set_status id FUNDED (credit (amount (invoices_at s id)) (run txs s))))
      else Reverted (Require "InvoiceEscrow: invoice must be in CREATED status")
    else Reverted (Require "InvoiceEscrow: only client can fund invoice").
Proof.
  intros Hr Hlt.
  destruct (invoice_persists txs id s Hr Hlt) as (Hc & _ & Hm).
  assert (client (invoices_at (run txs s) id) = client (invoices_at s id)) as Hcl
    by (rewrite Hm; by destruct (invoices_at s id)).
  assert (amount (invoices_at (run txs s) id) = amount (invoices_at s id)) as Ham
    by (rewrite Hm; by destruct (invoices_at s id)).
  rewrite <- Ham at 1. rewrite fund_exact by congruence.
  by rewrite Hcl, Ham.
Qed.

(** The parties and the amount of an invoice read on an earlier state. *)
Lemma parties_persist txs id s :
  reachable s → id < _invoiceCounter s →
  client (invoices_at (run txs s) id) = client (invoices_at s id) ∧
  freelancer (invoices_at (run txs s) id) = freelancer (invoices_at s id) ∧
  amount (invoices_at (run txs s) id) = amount (invoices_at s id) ∧
  client (invoices_at s id) ≠ 0 ∧ freelancer (invoices_at s id) ≠ 0.
Proof.
  intros Hr Hlt.
  destruct (invoice_persists txs id s Hr Hlt) as (Hc & Hi & Hm).
  pose proof (reachable_stored_ok s Hr id) as Hs. rewrite Hi in Hs.
  destruct Hs as (_ & _ & Hf & _).
  rewrite Hm. cbn [with_status client freelancer amount]. tauto.
Qed.

(** The balance covers a funded invoice, whatever was mined. *)
Lemma covered_later txs id s :
  reachable s →
  status (invoices_at (run txs s) id) = COMPLETED →
  amount (invoices_at (run txs s) id) ≤ balance (run txs s).
Proof.
  intros Hr Hst.
  assert (stored_ok (run txs s) ∧ solvent (run txs s)) as [_ Hsol].
  { apply (run_preserves (λ s', stored_ok s' ∧ solvent s')).
    - apply Forall_forall. intros c _. apply solvent_apply.
    - split; [by apply reachable_stored_ok|by apply reachable_solvent]. }
  assert (invoices (run txs s) !! id = Some (invoices_at (run txs s) id)) as Hi
    by (apply status_exists; by rewrite Hst).
  pose proof (held_by_le_held _ _ _ Hi) as Hh. unfold held_by in Hh.
  rewrite Hst in Hh. unfold solvent in Hsol. lia.
Qed.

Lemma complete_later a id txs s :
  reachable s → id < _invoiceCounter s →
  exec (MarkInvoiceCompleted a id) (run txs s)
  = if freelancer (invoices_at s id) =? a then
      if InvoiceStatus_eqb (status (invoices_at (run txs s) id)) FUNDED
      then Ok (emit (InvoiceCompleted id) (set_status id COMPLETED (run txs s)))
      else Reverted (Require "InvoiceEscrow: invoice must be in FUNDED status")
    else Reverted (Require "InvoiceEscrow: only freelancer can mark as completed").
Proof.
  intros Hr Hlt.
  destruct (parties_persist txs id s Hr Hlt) as (_ & Hf & _ & _ & Hf0%N.eqb_neq).
  cbn [exec]. unfold markInvoiceCompleted. rewrite Hf.
  rewrite require_true by (by rewrite Hf0).
  destruct (_ =? a); [|done]. rewrite require_true by done.
  by destruct (InvoiceStatus_eqb _ _).
Qed.

Lemma cancel_later a id txs s :
  reachable s → id < _invoiceCounter s →
  exec (CancelInvoice a id) (run txs s)
  = if client (invoices_at s id) =? a then
      if InvoiceStatus_eqb (status (invoices_at (run txs s) id)) CREATED
      then Ok (emit (InvoiceCancelled id) (set_status id CANCELLED (run txs s)))
      else Reverted (Require "InvoiceEscrow: invoice must be in CREATED status")
    else Reverted (Require "InvoiceEscrow: only client can cancel invoice").
Proof.
  intros Hr Hlt.
  destruct (parties_persist txs id s Hr Hlt) as (Hc & _ & _ & Hc0%N.eqb_neq & _).
  cbn [exec]. unfold cancelInvoice. rewrite Hc.
  rewrite require_true by (by rewrite Hc0).
  destruct (_ =? a); [|done]. rewrite require_true by done.
  by destruct (InvoiceStatus_eqb _ _).
Qed.

Lemma release_later a id payee txs s :
  reachable s → id < _invoiceCounter s →
  exec (ReleasePayment a id payee) (run txs s)
  = if client (invoices_at s id) =? a then
      if InvoiceStatus_eqb (status (invoices_at (run txs s) id)) COMPLETED
      then match payee with
           | Rejects => Reverted (Require "InvoiceEscrow: payment transfer failed")
           | Accepts cs =>
               Ok (emit (PaymentReleased id (freelancer (invoices_at s id))
                           (amount (invoices_at s id)))
                     (run cs (debit id (freelancer (invoices_at s id))
                                (amount (invoices_at s id))
                                (set_status id PAID (run txs s)))))
           end
      else Reverted (Require "InvoiceEscrow: invoice must be in COMPLETED status")
    else Reverted (Require "InvoiceEscrow: only client can release payment").
Proof.
  intros Hr Hlt.
  destruct (parties_persist txs id s Hr Hlt) as (Hc & Hf & Ha & Hc0%N.eqb_neq & _).
  cbn [exec]. unfold releasePayment. rewrite Hc.
  rewrite require_true by (by rewrite Hc0).
  destruct (_ =? a); [|done]. rewrite require_true by done.
  destruct (InvoiceStatus_eqb _ _) eqn:Hst; [|done].
  apply InvoiceStatus_eqb_eq in Hst.
  pose proof (covered_later txs id s Hr Hst) as Hle.
  rewrite require_true by done. rewrite Hf, Ha in *.
  unfold call_value.
  change (balance (set_status id PAID (run txs s))) with (balance (run txs s)).
  apply N.ltb_ge in Hle. rewrite Hle.
  destruct payee as [|cs]; [done|]. by rewrite callee_Accepts.
Qed.

(** The check of a well-formed key for an existing invoice. *)
Lemma checkPrivateKey_keyed {A} this party mismatch id key signer s :
  reachable s → key ≠ "" →
  isAddress (ethers this) key = false → Wallet (ethers this) key = Some signer →
  id < _invoiceCounter s →
  @checkPrivateKey A this party mismatch id (Some key) s
  = let i := invoices_at s id in
    if negb (signer =? party (mkApiInvoice id (client i) (freelancer i) (amount i)
                                (description i) (InvoiceStatus_ordinal (status i))))
    then Some (Refused mismatch None)
    else None.
Proof.
  intros Hr Hkey Haddr Hw Hlt. unfold checkPrivateKey.
  assert (falsy (Some key) = false) as -> by (by destruct key).
  change (default "" (Some key)) with key. rewrite Haddr, Hw.
  unfold ContractService_getInvoice.
  destruct (getInvoice_below s id Hr Hlt) as (-> & _ & Hid).
  cbn [orThrow await mbind Promise_bind rethrow]. by rewrite Hid.
Qed.

Lemma signer_of_key this key signer :
  key ≠ "" → Wallet (ethers this) key = Some signer →
  getContractWithWallet this (Some key) = Resolved signer.
Proof.
  intros Hkey Hw. unfold getContractWithWallet.
  assert (falsy (Some key) = false) as -> by (by destruct key).
  change (default "" (Some key)) with key. by rewrite Hw.
Qed.



(** * The claims *)

(** C1 -- PAID and CANCELLED are terminal and a payout is never repeated.
    In a reachable ledger, for an invoice whose status is PAID or
    CANCELLED: each of the five transitions on it reverts and leaves the
    state as it was; no later sequence of transactions, whatever calls
    are nested in them, changes its record, its events or the ether sent
    for it; and if it is PAID the ether sent for it over the whole run
    is exactly one transfer, of its amount, to its freelancer. *)
Theorem paid_and_cancelled_are_final (s : State) (id : uint256) :
  reachable s → terminal (status (invoices_at s id)) →
  (∀ c, transition_on c = Some id → ∃ e, reverts_with c s e) ∧
  (∀ txs, view id (run txs s) = view id s) ∧
  match status (invoices_at s id) with
  | PAID =>
      payouts id s =
      [mkTransfer id (freelancer (invoices_at s id)) (amount (invoices_at s id))]
  | _ => (length (payouts id s) ≤ 1)%nat
  end.
Proof.
  intros Hr Ht. split; [|split].
  - intros c Hc. destruct (terminal_rejects c s id Hc Ht) as [e He].
    exists e. by apply reverted_unchanged.
  - intros txs. apply frozen_run; [by apply reachable_stored_ok|done].
  - pose proof (reachable_audit_ok s id Hr) as Ha.
    apply (audit_ok_Some _ _ _ (terminal_exists _ _ Ht)) in Ha. cbn in Ha.
    destruct Ht as [Ht|Ht]; rewrite Ht in Ha |- *.
    + by destruct Ha as [_ ->].
    + destruct Ha as [[_ ->]|[_ ->]]; cbn; lia.
Qed.

Lemma paid_and_cancelled_are_final_witness :
  (∃ e, reverts_with (ReleasePayment 1 0 (Accepts [])) paid_ledger e) ∧
  payouts 0 paid_ledger = [mkTransfer 0 2 100].
Proof.
  destruct (paid_and_cancelled_are_final paid_ledger 0) as (Hfail & _ & Hpay).
  - apply reachable_paid_ledger.
  - by left.
  - split; [by apply Hfail|exact Hpay].
Defined.

(** C2 -- Authorization is exclusive per transition.  In a reachable
    ledger, for an invoice that exists: [fundInvoice], [releasePayment]
    and [cancelInvoice] revert with their "only client" error for every
    caller other than the invoice's client; [markInvoiceCompleted]
    reverts with its "only freelancer" error for every caller other than
    the invoice's freelancer; [resolveDispute] reverts with
    [OwnableUnauthorizedAccount] for every caller other than the owner;
    and each of these reverts leaves the state as it was. *)
Theorem authorization_is_exclusive (s : State) (id : uint256) (caller : address) :
  reachable s → client (invoices_at s id) ≠ 0 →
  (caller ≠ client (invoices_at s id) →
     (∀ v, reverts_with (FundInvoice caller v id) s
             (Require "InvoiceEscrow: only client can fund invoice")) ∧
     (∀ k, reverts_with (ReleasePayment caller id k) s
             (Require "InvoiceEscrow: only client can release payment")) ∧
     reverts_with (CancelInvoice caller id) s
       (Require "InvoiceEscrow: only client can cancel invoice")) ∧
  (caller ≠ freelancer (invoices_at s id) →
     reverts_with (MarkInvoiceCompleted caller id) s
       (Require "InvoiceEscrow: only freelancer can mark as completed")) ∧
  (caller ≠ _owner s →
     ∀ b k, reverts_with (ResolveDispute caller id b k) s
              (OwnableUnauthorizedAccount caller)).
Proof.
  intros Hr Hex.
  assert (freelancer (invoices_at s id) ≠ 0) as Hfl.
  { pose proof (reachable_stored_ok s Hr id) as Hs.
    rewrite (client_exists _ _ Hex) in Hs. tauto. }
  apply N.eqb_neq in Hex, Hfl.
  split; [|split].
  - intros Hne. apply not_eq_sym, N.eqb_neq in Hne.
    split; [|split]; intros; apply reverted_unchanged; cbn [exec];
      [unfold fundInvoice; rewrite invoices_at_credit
      |unfold releasePayment|unfold cancelInvoice];
      by rewrite require_true, require_false by (by rewrite ?Hex).
  - intros Hne. apply not_eq_sym, N.eqb_neq in Hne.
    apply reverted_unchanged; cbn [exec]. unfold markInvoiceCompleted.
    by rewrite require_true, require_false by (by rewrite ?Hfl).
  - intros Hne b k. apply not_eq_sym, N.eqb_neq in Hne.
    apply reverted_unchanged; cbn [exec]. unfold resolveDispute, onlyOwner.
    by rewrite Hne.
Qed.

Lemma authorization_is_exclusive_witness :
  reverts_with (FundInvoice 2 100 0) created_ledger
    (Require "InvoiceEscrow: only client can fund invoice") ∧
  reverts_with (MarkInvoiceCompleted 1 0) created_ledger
    (Require "InvoiceEscrow: only freelancer can mark as completed") ∧
  reverts_with (ResolveDispute 2 0 true Rejects) created_ledger
    (OwnableUnauthorizedAccount 2).
Proof.
  destruct (authorization_is_exclusive created_ledger 0 2) as (Hc & _ & Ho);
    [apply reachable_created_ledger|done|].
  destruct (authorization_is_exclusive created_ledger 0 1) as (_ & Hf & _);
    [apply reachable_created_ledger|done|].
  split; [|split].
  - by apply Hc.
  - by apply Hf.
  - by apply Ho.
Defined.

(** C3 -- Transfer-failure atomicity.  Once the checks of
    [releasePayment] pass, the recipient's code runs on a state in which
    the invoice is already PAID; the call succeeds exactly when the
    contract can afford the amount and the recipient accepts it, and
    otherwise reverts with the transfer-failed error, so that the
    transaction leaves the state, and with it the status, as it was.
    The same holds for [resolveDispute], where the status written before
    the transfer is PAID for a release and CANCELLED for a refund. *)
Theorem transfer_failure_is_atomic (s : State) (a : address) (id : uint256)
    (k : Callee) :
  let i := invoices_at s id in
  client i ≠ 0 →
  (client i = a → status i = COMPLETED →
     let s1 := debit id (freelancer i) (amount i) (set_status id PAID s) in
     status (invoices_at s1 id) = PAID ∧
     exec (ReleasePayment a id k) s =
       match (if balance s <? amount i then None else callee k s1) with
       | Some s2 => Ok (emit (PaymentReleased id (freelancer i) (amount i)) s2)
       | None => Reverted (Require "InvoiceEscrow: payment transfer failed")
       end ∧
     (balance s < amount i ∨ k = Rejects →
        reverts_with (ReleasePayment a id k) s
          (Require "InvoiceEscrow: payment transfer failed") ∧
        status (invoices_at (apply (ReleasePayment a id k) s) id) = COMPLETED)) ∧
  (_owner s = a → status i = FUNDED ∨ status i = COMPLETED →
     ∀ b,
       let s1 := debit id (resolution_payee b i) (amount i) (resolution id b s) in
       status (invoices_at s1 id) = (if b then PAID else CANCELLED) ∧
       exec (ResolveDispute a id b k) s =
         match (if balance s <? amount i then None else callee k s1) with
         | Some s2 =>
             Ok (if b then emit (PaymentReleased id (freelancer i) (amount i)) s2
                 else s2)
         | None =>
             Reverted (Require "InvoiceEscrow: dispute resolution transfer failed")
         end ∧
       (balance s < amount i ∨ k = Rejects →
          reverts_with (ResolveDispute a id b k) s
            (Require "InvoiceEscrow: dispute resolution transfer failed") ∧
          status (invoices_at (apply (ResolveDispute a id b k) s) id) = status i)).
Proof.
  intros i Hex. apply N.eqb_neq in Hex. split.
  - intros <- Hst s1.
    assert (exec (ReleasePayment (client i) id k) s =
              match (if balance s <? amount i then None else callee k s1) with
              | Some s2 => Ok (emit (PaymentReleased id (freelancer i) (amount i)) s2)
              | None => Reverted (Require "InvoiceEscrow: payment transfer failed")
              end) as E.
    { cbn [exec]. unfold releasePayment, call_value. fold i.
      rewrite !require_true by (by rewrite ?Hex, ?N.eqb_refl, ?Hst).
      change (balance (set_status id PAID s)) with (balance s). fold s1.
      destruct (balance s <? amount i); [done|]. by destruct (callee k s1). }
    split; [|split; [exact E|]].
    + unfold s1. by rewrite invoices_at_debit, invoices_at_set_status.
    + intros Hfail.
      assert (exec (ReleasePayment (client i) id k) s =
                Reverted (Require "InvoiceEscrow: payment transfer failed")) as E'.
      { rewrite E. destruct Hfail as [?%N.ltb_lt| ->]; [by rewrite H|].
        by destruct (balance s <? amount i). }
      split; [by apply reverted_unchanged|]. unfold apply. by rewrite E'.
  - intros <- Hst b s1.
    assert (exec (ResolveDispute (_owner s) id b k) s =
              match (if balance s <? amount i then None else callee k s1) with
              | Some s2 =>
                  Ok (if b then emit (PaymentReleased id (freelancer i) (amount i)) s2
                      else s2)
              | None =>
                  Reverted (Require "InvoiceEscrow: dispute resolution transfer failed")
              end) as E.
    { cbn [exec]. unfold resolveDispute, onlyOwner, call_value. fold i.
      rewrite N.eqb_refl.
      rewrite !require_true
        by (rewrite ?Hex; try done; by destruct Hst as [-> | ->]).
      unfold s1, resolution, resolution_payee.
      destruct b; cbn [balance emit set_status store_invoice];
        (destruct (balance s <? amount i); [done|]);
        by destruct (callee k _). }
    split; [|split; [exact E|]].
    + unfold s1, resolution.
      destruct b; by rewrite invoices_at_debit, invoices_at_emit, invoices_at_set_status.
    + intros Hfail.
      assert (exec (ResolveDispute (_owner s) id b k) s =
                Reverted (Require "InvoiceEscrow: dispute resolution transfer failed"))
        as E'.
      { rewrite E. destruct Hfail as [?%N.ltb_lt| ->]; [by rewrite H|].
        by destruct (balance s <? amount i). }
      split; [by apply reverted_unchanged|]. unfold apply. by rewrite E'.
Qed.

Lemma transfer_failure_is_atomic_witness :
  reverts_with (ReleasePayment 1 0 Rejects) completed_ledger
    (Require "InvoiceEscrow: payment transfer failed") ∧
  status (invoices_at (apply (ReleasePayment 1 0 Rejects) completed_ledger) 0)
  = COMPLETED.
Proof.
  destruct (transfer_failure_is_atomic completed_ledger 1 0 Rejects) as [Hrel _];
    [done|].
  destruct Hrel as (_ & _ & Hfail); [done..|].
  apply Hfail. by right.
Defined.

(** C4 -- State reachability.  In a reachable ledger the events logged
    about an invoice spell out how it got to its status.  A PAID invoice
    was created, funded, completed and then released by
    [releasePayment], or was created and funded, possibly completed, and
    then released by [resolveDispute].  A CANCELLED invoice was created
    and cancelled by [cancelInvoice] without ever being funded, or was
    created and funded, possibly completed, and then refunded by
    [resolveDispute].  The statuses on the way are reached in order
    too: a COMPLETED invoice was created and funded before, a FUNDED one
    was created before, and nothing else has happened to either. *)
Theorem status_reachability (s : State) (id : uint256) :
  reachable s →
  let i := invoices_at s id in
  let c := InvoiceCreated id (client i) (freelancer i) (amount i) (description i) in
  let f := InvoiceFunded id (amount i) in
  let m := InvoiceCompleted id in
  let x := InvoiceCancelled id in
  let rel := DisputeResolved id "release" in
  let ref := DisputeResolved id "refund" in
  let pr := PaymentReleased id (freelancer i) (amount i) in
  (status i = PAID →
     history id s = [c; f; m; pr] ∨
     history id s = [c; f; rel; pr] ∨
     history id s = [c; f; m; rel; pr]) ∧
  (status i = CANCELLED →
     history id s = [c; x] ∨
     history id s = [c; f; ref] ∨
     history id s = [c; f; m; ref]) ∧
  (status i = COMPLETED → history id s = [c; f; m]) ∧
  (status i = FUNDED → history id s = [c; f]) ∧
  (client i ≠ 0 → status i = CREATED → history id s = [c]).
Proof.
  intros Hr i c f m x rel ref pr.
  pose proof (reachable_audit_ok s id Hr) as Ha.
  assert (∀ st, status i = st → st ≠ CREATED → audit id (Some i, history id s, payouts id s))
    as Hst.
  { intros st Hst Hne. apply audit_ok_Some; [|done].
    apply status_exists. fold i. congruence. }
  split; [|split; [|split; [|split]]].
  - intros E. specialize (Hst _ E). cbn in Hst. rewrite E in Hst.
    by destruct Hst as [? _].
  - intros E. specialize (Hst _ E). cbn in Hst. rewrite E in Hst.
    destruct Hst as [[? _]|[? _]]; [done|by left|tauto].
  - intros E. specialize (Hst _ E). cbn in Hst. rewrite E in Hst.
    by destruct Hst as [? _].
  - intros E. specialize (Hst _ E). cbn in Hst. rewrite E in Hst.
    by destruct Hst as [? _].
  - intros Hex E. apply (audit_ok_Some _ _ _ (client_exists _ _ Hex)) in Ha.
    cbn in Ha. fold i in Ha. rewrite E in Ha. by destruct Ha as [? _].
Qed.

Lemma status_reachability_witness :
  history 0 paid_ledger =
  [InvoiceCreated 0 1 2 100 "web work"; InvoiceFunded 0 100; InvoiceCompleted 0;
   PaymentReleased 0 2 100].
Proof.
  destruct (status_reachability paid_ledger 0 reachable_paid_ledger) as [Hpaid _].
  destruct Hpaid as [H|[H|H]]; [done|exact H|discriminate H|discriminate H].
Defined.

(** C5 -- Exact funding.  For an existing invoice in status CREATED and
    its client as caller, [fundInvoice] succeeds when the ether sent
    equals the invoice amount, turning the status to FUNDED and adding
    the ether to the contract's balance; with any other value it reverts
    with the amount-mismatch error, the status stays CREATED and the
    balance is what it was.  A value other than the amount makes the
    call revert for every caller. *)
Theorem exact_funding (s : State) (id : uint256) (v : uint256) :
  let i := invoices_at s id in
  let c := FundInvoice (client i) v id in
  client i ≠ 0 → status i = CREATED →
  (v = amount i →
     exec c s = Ok (emit (InvoiceFunded id v) (set_status id FUNDED (credit v s))) ∧
     invoices_at (apply c s) id = with_status FUNDED i ∧
     balance (apply c s) = balance s + v) ∧
  (v ≠ amount i →
     reverts_with c s
       (Require "InvoiceEscrow: sent amount must match invoice amount") ∧
     status (invoices_at (apply c s) id) = CREATED ∧
     balance (apply c s) = balance s) ∧
  ((∃ s', exec c s = Ok s') ↔ v = amount i) ∧
  (v ≠ amount i → ∀ caller, ∃ e, reverts_with (FundInvoice caller v id) s e).
Proof.
  intros i c Hex Hst.
  assert (v = amount i → exec c s =
            Ok (emit (InvoiceFunded id v) (set_status id FUNDED (credit v s)))) as Hok.
  { intros Hv. by apply fundInvoice_Ok. }
  assert (v ≠ amount i → exec c s =
            Reverted (Require "InvoiceEscrow: sent amount must match invoice amount"))
    as Hko.
  { intros Hv%N.eqb_neq. apply N.eqb_neq in Hex. cbn [exec c].
    unfold fundInvoice. rewrite invoices_at_credit. fold i.
    by rewrite !require_true, require_false
      by (by rewrite ?Hex, ?N.eqb_refl, ?Hst). }
  split; [|split; [|split]].
  - intros Hv. specialize (Hok Hv). split; [done|].
    unfold apply. rewrite Hok. cbn [commit].
    by rewrite invoices_at_emit, invoices_at_set_status, invoices_at_credit.
  - intros Hv. specialize (Hko Hv). split; [by apply reverted_unchanged|].
    unfold apply. by rewrite Hko.
  - split; [|by eauto]. intros [s' E].
    by apply fundInvoice_Ok in E as (_ & _ & _ & ? & _).
  - intros Hv caller. destruct (exec (FundInvoice caller v id) s) as [s'|e] eqn:E.
    + by apply fundInvoice_Ok in E as (_ & _ & _ & ? & _).
    + exists e. by apply reverted_unchanged.
Qed.

Lemma exact_funding_witness :
  reverts_with (FundInvoice 1 99 0) created_ledger
    (Require "InvoiceEscrow: sent amount must match invoice amount") ∧
  balance (apply (FundInvoice 1 99 0) created_ledger) = 0 ∧
  status (invoices_at (apply (FundInvoice 1 100 0) created_ledger) 0) = FUNDED ∧
  balance (apply (FundInvoice 1 100 0) created_ledger) = 100.
Proof.
  destruct (exact_funding created_ledger 0 99) as (_ & Hko & _); [done..|].
  destruct (exact_funding created_ledger 0 100) as (Hok & _); [done..|].
  destruct Hko as (Hrev & _ & Hb); [done|].
  destruct Hok as (_ & Hi & Hb'); [done|].
  split; [exact Hrev|]. split; [exact Hb|].
  split; [exact (f_equal status Hi)|exact Hb'].
Defined.

(** C6, as the code has it -- which error an unknown invoice id gets.
    For an id that was never created, [fundInvoice],
    [markInvoiceCompleted], [releasePayment] and [cancelInvoice] revert
    with "invoice does not exist" for every caller.  [resolveDispute]
    does so only when the caller is the owner: [onlyOwner] runs before
    the function body, so any other caller gets
    [OwnableUnauthorizedAccount].  In both cases the state is left as it
    was. *)
Theorem unknown_invoice_error (s : State) (id : uint256) (c : Call) :
  invoices s !! id = None → transition_on c = Some id →
  reverts_with c s
    match c with
    | ResolveDispute a _ _ _ =>
        if _owner s =? a then Require "InvoiceEscrow: invoice does not exist"
        else OwnableUnauthorizedAccount a
    | _ => Require "InvoiceEscrow: invoice does not exist"
    end.
Proof.
  intros Hnone%invoices_at_None Hc. apply reverted_unchanged.
  destruct c; cbn in Hc; try discriminate; injection Hc as ->; cbn [exec].
  - unfold fundInvoice. by rewrite invoices_at_credit, Hnone.
  - unfold markInvoiceCompleted. by rewrite Hnone.
  - unfold releasePayment. by rewrite Hnone.
  - unfold cancelInvoice. by rewrite Hnone.
  - unfold resolveDispute, onlyOwner. rewrite Hnone.
    by destruct (_owner s =? msg_sender).
Qed.

Lemma unknown_invoice_error_witness :
  reverts_with (FundInvoice 1 10 99) created_ledger
    (Require "InvoiceEscrow: invoice does not exist").
Proof. by apply (unknown_invoice_error created_ledger 99 (FundInvoice 1 10 99)). Defined.

(** C6, as the claim states it, fails: on the fresh ledger, whose owner
    is 9, invoice 99 was never created, yet [resolveDispute] called by 2
    reverts with the authorization error of [onlyOwner] and not with
    "invoice does not exist". *)
Lemma existence_error_masked_by_onlyOwner :
  reachable fresh_ledger ∧
  invoices fresh_ledger !! 99 = None ∧
  transition_on (ResolveDispute 2 99 true Rejects) = Some 99 ∧
  exec (ResolveDispute 2 99 true Rejects) fresh_ledger
  = Reverted (OwnableUnauthorizedAccount 2) ∧
  exec (ResolveDispute 2 99 true Rejects) fresh_ledger
  ≠ Reverted (Require "InvoiceEscrow: invoice does not exist").
Proof.
  split; [apply reachable_fresh_ledger|]. by repeat split.
Qed.

(** C7 -- Monotonic id minting.  Every successful [createInvoice]
    returns the current counter and increments it by one.  Hence [N]
    successful creations on a freshly constructed ledger return the ids
    0, 1, ..., N-1 in call order and leave [getTotalInvoices] at [N];
    and whatever transactions follow (funding, cancelling, paying,
    further creations, nested or not), [getTotalInvoices] is the number
    of [InvoiceCreated] events logged so far, whose ids are 0, 1, 2, ...
    in order: invoices are counted whatever became of them. *)
Theorem ids_are_minted_in_order (o : address) (s0 : State)
    (reqs : list (address * address * uint256 * string))
    (s : State) (ids : list uint256) :
  constructor o = Ok s0 → createAll reqs s0 = Ok (s, ids) →
  ids = first_ids (length reqs) ∧
  getTotalInvoices s = N.of_nat (length reqs) ∧
  (∀ a f v d s1 s2 id,
     createInvoice a f v d s1 = Ok (s2, id) →
     id = getTotalInvoices s1 ∧ getTotalInvoices s2 = getTotalInvoices s1 + 1) ∧
  (∀ txs,
     created_ids (events (run txs s))
     = first_ids (N.to_nat (getTotalInvoices (run txs s)))).
Proof.
  intros [_ ->]%constructor_Ok E.
  destruct (createAll_counter reqs _ _ _ (eq_refl : ids_ok (mkState ∅ 0 o 0 [] [])) E)
    as (Hs & -> & Hn).
  cbn [_invoiceCounter] in Hn. split; [|split; [|split]].
  - unfold first_ids. apply map_ext. intros k. cbn. lia.
  - unfold getTotalInvoices. lia.
  - intros a f v d s1 s2 id (_ & _ & _ & _ & -> & ->)%createInvoice_Ok. done.
  - intros txs. by apply ids_ok_run.
Qed.

Lemma ids_are_minted_in_order_witness :
  [0; 1; 2] = first_ids 3 ∧
  getTotalInvoices
    (run [CreateInvoice 1 2 100 "web work"; CreateInvoice 1 2 50 "logo";
          CancelInvoice 1 1; CreateInvoice 1 2 10 "x"] fresh_ledger) = 3.
Proof.
  destruct (ids_are_minted_in_order 9 fresh_ledger
              [(1, 2, 100, "web work"); (1, 2, 50, "logo"); (1, 2, 10, "x")]
              (run [CreateInvoice 1 2 100 "web work"; CreateInvoice 1 2 50 "logo";
                    CreateInvoice 1 2 10 "x"] fresh_ledger)
              [0; 1; 2]) as (Hids & _ & _ & _); [done..|].
  split; [exact Hids|done].
Defined.

(** C8, as the code has it -- frame condition of transitions.  A
    successful transition on invoice [id] of a reachable ledger itself
    writes one thing: the status of that invoice.  The state [s1] it
    produces has the same counter as before and the same mapping but
    for that status; the final state is what the calls the recipient of
    a payout makes back into the contract, if any, leave of [s1].  With
    no such calls the mapping and the counter of the final state are
    those of [s1]: every other invoice and the counter are unchanged.
    In every case the target ends with its new status and its other
    fields as they were, and every invoice stored before is stored
    after with the same id, client, freelancer, amount and
    description. *)
Theorem transitions_change_status_only (c : Call) (id : uint256) (s s' : State) :
  reachable s → transition_on c = Some id → exec c s = Ok s' →
  ∃ st s1,
    is_Some (invoices s !! id) ∧
    invoices s1 = <[id := with_status st (invoices_at s id)]> (invoices s) ∧
    _invoiceCounter s1 = _invoiceCounter s ∧
    invoices s' = invoices (run (reentrant c) s1) ∧
    _invoiceCounter s' = _invoiceCounter (run (reentrant c) s1) ∧
    (reentrant c = [] →
       invoices s' = <[id := with_status st (invoices_at s id)]> (invoices s) ∧
       _invoiceCounter s' = _invoiceCounter s) ∧
    invoices s' !! id = Some (with_status st (invoices_at s id)) ∧
    (∀ id' i, invoices s !! id' = Some i → keeps id' i s').
Proof.
  intros Hr Hc E. pose proof (reachable_stored_ok s Hr) as Hs.
  assert (∀ id' i, invoices s !! id' = Some i → keeps id' i s') as Hkeep.
  { intros id' i Hi.
    destruct (keeps_apply c id' i s) as [_ Hk].
    - split; [done|]. exists (status i). by rewrite with_status_same.
    - unfold apply in Hk. by rewrite E in Hk. }
  destruct c; cbn in Hc; try discriminate; injection Hc as ->; cbn [exec] in E.
  - apply fundInvoice_Ok in E as (Hex%client_exists & _ & _ & _ & ->).
    exists FUNDED, (set_status id FUNDED (credit msg_value s)).
    split; [by eexists|]. do 4 (split; [done|]). split; [done|]. split; [|done].
    cbn. by rewrite lookup_insert_eq.
  - apply markInvoiceCompleted_Ok in E as (Hex%freelancer_exists & _ & _ & ->).
    exists COMPLETED, (set_status id COMPLETED s).
    split; [by eexists|]. do 4 (split; [done|]). split; [done|]. split; [|done].
    cbn. by rewrite lookup_insert_eq.
  - apply releasePayment_Ok in E as (Hex%client_exists & _ & _ & _ & s2 & Hk & ->).
    apply callee_Some in Hk as (cs & -> & ->). cbn [reentrant].
    set (s1 := debit _ _ _ _).
    exists PAID, s1.
    split; [by eexists|]. do 4 (split; [done|]). split; [by intros ->|].
    split; [|done].
    assert (invoices s1 !! id = Some (with_status PAID (invoices_at s id))) as H1.
    { unfold s1. by rewrite lookup_debit, lookup_set_status, decide_True. }
    assert (view id (run cs s1) = view id s1) as Hv.
    { apply frozen_run.
      - apply stored_ok_debit, stored_ok_set_status; [by eexists|done].
      - rewrite (invoices_at_lookup _ _ _ H1). by left. }
    unfold view in Hv. injection Hv as Hv _ _.
    rewrite lookup_emit, Hv. exact H1.
  - apply cancelInvoice_Ok in E as (Hex%client_exists & _ & _ & ->).
    exists CANCELLED, (set_status id CANCELLED s).
    split; [by eexists|]. do 4 (split; [done|]). split; [done|]. split; [|done].
    cbn. by rewrite lookup_insert_eq.
  - apply resolveDispute_Ok in E as (_ & Hex%client_exists & _ & _ & s2 & Hk & ->).
    apply callee_Some in Hk as (cs & -> & ->). cbn [reentrant].
    set (s1 := debit _ _ _ _).
    assert (invoices s1 !! id =
              Some (with_status (if releaseToFreelancer then PAID else CANCELLED)
                      (invoices_at s id))) as H1.
    { unfold s1, resolution. rewrite lookup_debit.
      destruct releaseToFreelancer;
        by rewrite lookup_emit, lookup_set_status, decide_True. }
    assert (view id (run cs s1) = view id s1) as Hv.
    { apply frozen_run.
      - apply stored_ok_debit, stored_ok_resolution; [by eexists|done].
      - rewrite (invoices_at_lookup _ _ _ H1).
        destruct releaseToFreelancer; [by left|by right]. }
    unfold view in Hv. injection Hv as Hv _ _.
    exists (if releaseToFreelancer then PAID else CANCELLED), s1.
    split; [by eexists|]. split.
    { unfold s1, resolution. by destruct releaseToFreelancer. }
    split; [by unfold s1, resolution; destruct releaseToFreelancer|].
    split; [by destruct releaseToFreelancer|].
    split; [by destruct releaseToFreelancer|].
    split.
    { intros ->. unfold s1, resolution. by destruct releaseToFreelancer. }
    split; [|done].
    destruct releaseToFreelancer; [rewrite lookup_emit|]; rewrite Hv; exact H1.
Qed.

(** C8, as the claim states it, fails: [releasePayment] hands control
    to the freelancer before it returns, and nothing stops the
    freelancer from calling back into the contract.  Here freelancer 2,
    while being paid for invoice 0, creates invoice 1: the release
    succeeds, and the transaction has advanced the counter and written
    a second invoice. *)
Lemma reentrant_payee_moves_counter :
  reachable completed_ledger ∧
  transition_on reentering_release = Some 0 ∧
  (∃ s', exec reentering_release completed_ledger = Ok s') ∧
  _invoiceCounter completed_ledger = 1 ∧
  _invoiceCounter (apply reentering_release completed_ledger) = 2 ∧
  invoices completed_ledger !! 1 = None ∧
  invoices (apply reentering_release completed_ledger) !! 1
  = Some (mkInvoice 1 2 2 5 "x" CREATED).
Proof.
  split; [apply reachable_completed_ledger|].
  split; [done|]. split; [by eexists|]. by repeat split.
Qed.

Lemma transitions_change_status_only_witness :
  _invoiceCounter paid_ledger = 1 ∧
  keeps 0 (mkInvoice 0 1 2 100 "web work" COMPLETED) paid_ledger.
Proof.
  destruct (transitions_change_status_only (ReleasePayment 1 0 (Accepts []))
              0 completed_ledger paid_ledger)
    as (st & s1 & _ & _ & _ & _ & _ & Hflat & _ & Hkeep);
    [apply reachable_completed_ledger|done..|].
  destruct (Hflat eq_refl) as [_ Hcnt].
  split; [exact Hcnt|]. by apply Hkeep.
Defined.

(** C9 -- Ledger well-formedness.  In a reachable ledger every slot
    below the counter holds an invoice whose [invoiceId] is its key,
    whose client and freelancer are not the zero address, whose amount
    is positive and whose description is not empty; every slot at or
    above the counter has its client equal to the zero address.  So the
    test [client != address(0)] holds exactly for the ids handed out. *)
Theorem ledger_well_formed (s : State) (id : uint256) :
  reachable s →
  let i := invoices_at s id in
  (id < _invoiceCounter s →
     invoiceId i = id ∧ client i ≠ 0 ∧ freelancer i ≠ 0 ∧
     0 < amount i ∧ description i ≠ "") ∧
  (_invoiceCounter s ≤ id → client i = 0) ∧
  (client i ≠ 0 ↔ id < _invoiceCounter s).
Proof.
  intros Hr i.
  pose proof (reachable_stored_ok s Hr id) as Hs.
  pose proof (reachable_clients_ok s Hr id) as Hc.
  unfold i, invoices_at. destruct (invoices s !! id) as [j|]; cbn.
  - destruct Hs as (? & ? & ? & ? & ?). specialize (Hc j eq_refl).
    repeat split; try done; lia.
  - repeat split; try done; lia.
Qed.

Lemma ledger_well_formed_witness :
  client (invoices_at paid_ledger 0) ≠ 0 ∧ client (invoices_at paid_ledger 1) = 0.
Proof.
  destruct (ledger_well_formed paid_ledger 0 reachable_paid_ledger) as (Hlt & _).
  destruct (ledger_well_formed paid_ledger 1 reachable_paid_ledger) as (_ & Hge & _).
  split; [by apply Hlt|by apply Hge].
Defined.

(** C10 -- Self-dealing is permitted.  [createInvoice] does not ask the
    freelancer to differ from the caller.  On any reachable ledger with
    room for one more id, any caller [C] can create an invoice naming
    itself as freelancer and then, alone, fund it, mark it completed and
    release the payment: every call succeeds, the invoice ends PAID with
    client = freelancer = [C], and the one payout made for it goes to
    [C]. *)
Theorem self_dealing_is_permitted (s : State) (C : address) (amt : uint256)
    (d : string) :
  reachable s → C ≠ 0 → 0 < amt → d ≠ "" → _invoiceCounter s ≠ MAX_UINT256 →
  let id := _invoiceCounter s in
  ∃ s1 s2 s3 s4,
    createInvoice C C amt d s = Ok (s1, id) ∧
    invoices_at s1 id = mkInvoice id C C amt d CREATED ∧
    exec (FundInvoice C amt id) s1 = Ok s2 ∧
    exec (MarkInvoiceCompleted C id) s2 = Ok s3 ∧
    exec (ReleasePayment C id (Accepts [])) s3 = Ok s4 ∧
    invoices_at s4 id = mkInvoice id C C amt d PAID ∧
    payouts id s4 = [mkTransfer id C amt].
Proof.
  intros Hr HC Hamt Hd Hmax id.
  set (s1 := emit (InvoiceCreated id C C amt d)
               (store_invoice id (mkInvoice id C C amt d CREATED)
                  (set_counter (id + 1) s))).
  assert (invoices_at s1 id = mkInvoice id C C amt d CREATED) as H1.
  { unfold invoices_at, s1. cbn. by rewrite lookup_insert_eq. }
  set (s2 := emit (InvoiceFunded id amt) (set_status id FUNDED (credit amt s1))).
  assert (invoices_at s2 id = mkInvoice id C C amt d FUNDED) as H2.
  { unfold s2. by rewrite invoices_at_emit, invoices_at_set_status,
      invoices_at_credit, H1. }
  set (s3 := emit (InvoiceCompleted id) (set_status id COMPLETED s2)).
  assert (invoices_at s3 id = mkInvoice id C C amt d COMPLETED) as H3.
  { unfold s3. by rewrite invoices_at_emit, invoices_at_set_status, H2. }
  set (s4 := emit (PaymentReleased id C amt)
               (debit id C amt (set_status id PAID s3))).
  exists s1, s2, s3, s4. split; [by apply createInvoice_Ok|]. split; [done|].
  split; [cbn [exec]; apply fundInvoice_Ok; by rewrite H1|].
  split; [cbn [exec]; apply markInvoiceCompleted_Ok; by rewrite H2|].
  split.
  { cbn [exec]. apply releasePayment_Ok. rewrite H3. cbn.
    repeat split; try done; [lia|]. by eexists. }
  split.
  { unfold s4. by rewrite invoices_at_emit, invoices_at_debit,
      invoices_at_set_status, H3. }
  pose proof (reachable_audit_ok s id Hr) as Ha.
  pose proof (reachable_stored_ok s Hr id) as Hs.
  unfold audit_ok, view in Ha. fold id in Hs.
  destruct (invoices s !! id); [lia|]. destruct Ha as [_ Hp].
  unfold s4, s3, s2, s1. autorewrite with ledger.
  rewrite decide_True by done.
  change (payouts id (store_invoice ?a ?b (set_counter ?c s))) with (payouts id s).
  by rewrite Hp.
Qed.

Lemma self_dealing_is_permitted_witness :
  ∃ s1 s2 s3 s4,
    createInvoice 7 7 5 "self" fresh_ledger = Ok (s1, 0) ∧
    invoices_at s1 0 = mkInvoice 0 7 7 5 "self" CREATED ∧
    exec (FundInvoice 7 5 0) s1 = Ok s2 ∧
    exec (MarkInvoiceCompleted 7 0) s2 = Ok s3 ∧
    exec (ReleasePayment 7 0 (Accepts [])) s3 = Ok s4 ∧
    invoices_at s4 0 = mkInvoice 0 7 7 5 "self" PAID ∧
    payouts 0 s4 = [mkTransfer 0 7 5].
Proof.
  apply (self_dealing_is_permitted fresh_ledger 7 5 "self");
    [apply reachable_fresh_ledger|done..].
Defined.

(** * Further properties *)

(** X1 -- Solvency.  In a reachable ledger the contract's balance covers
    the amounts of all FUNDED and COMPLETED invoices together; so it
    covers the amount of each of them, and releasing a COMPLETED invoice
    to a recipient that accepts the ether always succeeds: held funds
    are never stranded for lack of balance. *)
Theorem escrow_is_solvent (s : State) (id : uint256) :
  reachable s →
  let i := invoices_at s id in
  held s ≤ balance s ∧
  (status i = FUNDED ∨ status i = COMPLETED → amount i ≤ balance s) ∧
  (status i = COMPLETED →
     ∀ cs, ∃ s', exec (ReleasePayment (client i) id (Accepts cs)) s = Ok s').
Proof.
  intros Hr i. pose proof (reachable_solvent s Hr) as Hb. unfold solvent in Hb.
  assert (status i = FUNDED ∨ status i = COMPLETED → amount i ≤ balance s) as Hle.
  { intros Hst.
    assert (invoices s !! id = Some i) as Hi
      by (apply status_exists; fold i; destruct Hst; congruence).
    pose proof (held_by_le_held s id i Hi) as Hh. unfold held_by in Hh.
    destruct Hst as [Hst|Hst]; rewrite Hst in Hh; lia. }
  split; [done|]. split; [done|].
  intros Hst cs. eexists. cbn [exec]. apply releasePayment_Ok. fold i.
  assert (invoices s !! id = Some i) as Hi
    by (apply status_exists; fold i; congruence).
  split; [exact (reachable_clients_ok s Hr id i Hi)|].
  split; [done|]. split; [done|]. split; [by apply Hle; right|].
  eexists. split; [apply callee_Accepts|done].
Qed.

Lemma escrow_is_solvent_witness :
  held completed_ledger ≤ balance completed_ledger ∧
  ∃ s', exec (ReleasePayment 1 0 (Accepts [])) completed_ledger = Ok s'.
Proof.
  destruct (escrow_is_solvent completed_ledger 0 reachable_completed_ledger)
    as (Hb & _ & Hrel).
  split; [exact Hb|]. by apply (Hrel eq_refl []).
Defined.

(** X2 -- Queries.  In a reachable ledger [getInvoice] and
    [getInvoiceStatus] return the stored record and its status for every
    id below [getTotalInvoices], the record carrying that id, and revert
    with "invoice does not exist" for every other id. *)
Theorem queries_find_created_invoices (s : State) (id : uint256) :
  reachable s →
  (id < getTotalInvoices s →
     getInvoice id s = Ok (invoices_at s id) ∧
     getInvoiceStatus id s = Ok (status (invoices_at s id)) ∧
     invoiceId (invoices_at s id) = id) ∧
  (getTotalInvoices s ≤ id →
     getInvoice id s = Reverted (Require "InvoiceEscrow: invoice does not exist") ∧
     getInvoiceStatus id s
     = Reverted (Require "InvoiceEscrow: invoice does not exist")).
Proof.
  intros Hr.
  pose proof (reachable_stored_ok s Hr id) as Hs.
  pose proof (reachable_clients_ok s Hr id) as Hc.
  unfold getInvoice, getInvoiceStatus, getTotalInvoices.
  destruct (invoices s !! id) as [j|] eqn:Hj.
  - rewrite (invoices_at_lookup _ _ _ Hj).
    destruct Hs as (? & ? & _). specialize (Hc j eq_refl).
    apply N.eqb_neq in Hc. split; [|lia]. intros _.
    unfold require. by rewrite Hc.
  - rewrite (invoices_at_None _ _ Hj). split; [lia|]. by intros _.
Qed.

Lemma queries_find_created_invoices_witness :
  getInvoiceStatus 0 paid_ledger = Ok PAID ∧
  getInvoice 99 paid_ledger
  = Reverted (Require "InvoiceEscrow: invoice does not exist").
Proof.
  destruct (queries_find_created_invoices paid_ledger 0 reachable_paid_ledger)
    as [Hlt _].
  destruct (queries_find_created_invoices paid_ledger 99 reachable_paid_ledger)
    as [_ Hge].
  destruct Hlt as (_ & Hst & _); [done|]. destruct Hge as (Hg & _); [done|].
  split; [exact Hst|exact Hg].
Defined.

(** X3 -- Money goes to the right party.  In a reachable ledger the
    ether sent out for an invoice is: nothing while it is CREATED,
    FUNDED or COMPLETED; one transfer of its amount to its freelancer
    when it is PAID; and, when it is CANCELLED, either nothing (it was
    cancelled before funding) or one transfer of its amount back to its
    client (a dispute refund). *)
Theorem payouts_go_to_the_right_party (s : State) (id : uint256) :
  reachable s →
  let i := invoices_at s id in
  match status i with
  | CREATED | FUNDED | COMPLETED => payouts id s = []
  | PAID => payouts id s = [mkTransfer id (freelancer i) (amount i)]
  | CANCELLED =>
      (payouts id s = [] ∧ history id s =
         [InvoiceCreated id (client i) (freelancer i) (amount i) (description i);
          InvoiceCancelled id]) ∨
      payouts id s = [mkTransfer id (client i) (amount i)]
  end.
Proof.
  intros Hr i. pose proof (reachable_audit_ok s id Hr) as Ha.
  unfold audit_ok, view in Ha. unfold i, invoices_at.
  destruct (invoices s !! id) as [j|]; cbn in Ha |- *; [|tauto].
  destruct (status j); tauto.
Qed.

Lemma payouts_go_to_the_right_party_witness :
  payouts 0 paid_ledger = [mkTransfer 0 2 100].
Proof.
  exact (payouts_go_to_the_right_party paid_ledger 0 reachable_paid_ledger).
Defined.

(** X4 -- A release cannot be replayed.  After a successful
    [releasePayment] on a reachable ledger, whatever the freelancer did
    while being paid, a second [releasePayment] on the same invoice by
    the client reverts with "invoice must be in COMPLETED status". *)
Theorem release_is_not_idempotent (s s' : State) (a : address) (id : uint256)
    (k k' : Callee) :
  reachable s → exec (ReleasePayment a id k) s = Ok s' →
  reverts_with (ReleasePayment a id k') s'
    (Require "InvoiceEscrow: invoice must be in COMPLETED status").
Proof.
  intros Hr E. apply reverted_unchanged. cbn [exec] in E |- *.
  apply releasePayment_Ok in E as (Hex & Ha & Hst & _ & s2 & Hk & ->).
  apply callee_Some in Hk as (cs & -> & ->).
  set (s1 := debit _ _ _ _).
  assert (invoices_at s1 id = with_status PAID (invoices_at s id)) as H1.
  { unfold s1. by rewrite invoices_at_debit, invoices_at_set_status. }
  assert (view id (run cs s1) = view id s1) as Hv.
  { apply frozen_run.
    - apply stored_ok_debit, stored_ok_set_status;
        [by rewrite (client_exists _ _ Hex)|by apply reachable_stored_ok].
    - rewrite H1. by left. }
  apply view_status in Hv.
  unfold releasePayment. rewrite invoices_at_emit, Hv, H1.
  cbn [client status with_status]. apply N.eqb_neq in Hex.
  by rewrite !require_true, require_false by (by rewrite ?Hex, ?Ha, ?N.eqb_refl).
Qed.

Lemma release_is_not_idempotent_witness :
  reverts_with (ReleasePayment 1 0 (Accepts [])) paid_ledger
    (Require "InvoiceEscrow: invoice must be in COMPLETED status").
Proof.
  by apply (release_is_not_idempotent completed_ledger paid_ledger 1 0 (Accepts []));
    [apply reachable_completed_ledger|].
Defined.

(** X5 -- No transition is reversible.  Over any sequence of
    transactions on a reachable ledger, whatever calls are nested in
    them, the status of an invoice either stays what it was or moves
    further along CREATED, FUNDED, COMPLETED, PAID/CANCELLED: an invoice
    that has left CREATED never reads CREATED again, and a COMPLETED
    invoice is never FUNDED again. *)
Theorem status_never_goes_back (s : State) (id : uint256) (txs : list Call) :
  reachable s →
  let before := status (invoices_at s id) in
  let after := status (invoices_at (run txs s) id) in
  status_advances before after ∧
  (before ≠ CREATED → after ≠ CREATED) ∧
  (before = COMPLETED → after = COMPLETED ∨ after = PAID ∨ after = CANCELLED).
Proof.
  intros Hr before after.
  pose proof (advances_run txs id s (reachable_stored_ok s Hr)) as Hadv.
  fold before after in Hadv. split; [done|]. split.
  - intros Hne ->. destruct Hadv as [?|Hlt]; [done|]. cbn in Hlt. lia.
  - intros Hb. rewrite Hb in Hadv. destruct Hadv as [<-|Hlt]; [by left|].
    destruct after; cbn in Hlt; try lia; auto.
Qed.

Lemma status_never_goes_back_witness :
  status_advances (status (invoices_at created_ledger 0))
    (status (invoices_at paid_ledger 0)).
Proof.
  destruct (status_never_goes_back created_ledger 0
              [FundInvoice 1 100 0; MarkInvoiceCompleted 2 0;
               ReleasePayment 1 0 (Accepts [])] reachable_created_ledger)
    as [Hadv _].
  exact Hadv.
Defined.

(** X6 -- The transition table.  A transition that succeeds on a
    reachable ledger was called by the party it belongs to, found the
    invoice in the status it starts from, and leaves it, when the whole
    call has returned, in the status it leads to: [fundInvoice] by the
    client with the exact amount, CREATED to FUNDED;
    [markInvoiceCompleted] by the freelancer, FUNDED to COMPLETED;
    [releasePayment] by the client, COMPLETED to PAID; [cancelInvoice]
    by the client, CREATED to CANCELLED; [resolveDispute] by the owner,
    FUNDED or COMPLETED to PAID (release) or CANCELLED (refund). *)
Theorem transition_table (c : Call) (id : uint256) (s s' : State) :
  reachable s → transition_on c = Some id → exec c s = Ok s' →
  let i := invoices_at s id in
  let after := status (invoices_at s' id) in
  match c with
  | FundInvoice a v _ =>
      a = client i ∧ v = amount i ∧ status i = CREATED ∧ after = FUNDED
  | MarkInvoiceCompleted a _ =>
      a = freelancer i ∧ status i = FUNDED ∧ after = COMPLETED
  | ReleasePayment a _ _ =>
      a = client i ∧ status i = COMPLETED ∧ after = PAID
  | CancelInvoice a _ =>
      a = client i ∧ status i = CREATED ∧ after = CANCELLED
  | ResolveDispute a _ b _ =>
      a = _owner s ∧ (status i = FUNDED ∨ status i = COMPLETED) ∧
      after = (if b then PAID else CANCELLED)
  | CreateInvoice _ _ _ _ | TransferOwnership _ _ | Receive _ _ => True
  end.
Proof.
  intros Hr Hc E i after. pose proof (reachable_stored_ok s Hr) as Hs.
  destruct c; cbn in Hc; try discriminate; injection Hc as ->; cbn [exec] in E;
    unfold after.
  - apply fundInvoice_Ok in E as (_ & <- & Hst & -> & ->).
    by rewrite invoices_at_emit, invoices_at_set_status.
  - apply markInvoiceCompleted_Ok in E as (_ & <- & Hst & ->).
    by rewrite invoices_at_emit, invoices_at_set_status.
  - apply releasePayment_Ok in E as (Hex%client_exists & <- & Hst & _ & s2 & Hk & ->).
    apply callee_Some in Hk as (cs & -> & ->).
    split; [done|]. split; [done|]. rewrite invoices_at_emit.
    set (s1 := debit _ _ _ _).
    assert (invoices_at s1 id = with_status PAID (invoices_at s id)) as H1.
    { unfold s1. by rewrite invoices_at_debit, invoices_at_set_status. }
    assert (invoices_at (run cs s1) id = invoices_at s1 id) as Hv.
    { apply view_status, frozen_run.
      - apply stored_ok_debit, stored_ok_set_status; [by eexists|done].
      - rewrite H1. by left. }
    by rewrite Hv, H1.
  - apply cancelInvoice_Ok in E as (_ & <- & Hst & ->).
    by rewrite invoices_at_emit, invoices_at_set_status.
  - apply resolveDispute_Ok in E as (<- & Hex%client_exists & Hst & _ & s2 & Hk & ->).
    apply callee_Some in Hk as (cs & -> & ->).
    split; [done|]. split; [done|].
    set (s1 := debit _ _ _ _).
    assert (status (invoices_at s1 id) = if releaseToFreelancer then PAID else CANCELLED)
      as H1.
    { unfold s1, resolution. rewrite invoices_at_debit.
      destruct releaseToFreelancer;
        by rewrite invoices_at_emit, invoices_at_set_status. }
    assert (invoices_at (run cs s1) id = invoices_at s1 id) as Hv.
    { apply view_status, frozen_run.
      - apply stored_ok_debit, stored_ok_resolution; [by eexists|done].
      - rewrite H1. destruct releaseToFreelancer; [by left|by right]. }
    destruct releaseToFreelancer; [rewrite invoices_at_emit|]; by rewrite Hv.
Qed.

Lemma transition_table_witness :
  status (invoices_at completed_ledger 0) = COMPLETED ∧
  status (invoices_at paid_ledger 0) = PAID.
Proof.
  destruct (transition_table (ReleasePayment 1 0 (Accepts [])) 0
              completed_ledger paid_ledger) as (_ & Hb & Ha);
    [apply reachable_completed_ledger|done..|].
  split; [exact Hb|exact Ha].
Defined.

(** X7 -- Ether above the escrow holdings is locked.  The contract has
    no function that pays out anything but the amount of an invoice, so
    whatever ether it owns beyond the amounts of the FUNDED and
    COMPLETED invoices it still owns after any sequence of transactions;
    in particular ether sent with a plain transfer, which [receive]
    accepts, stays in the contract for good. *)
Theorem surplus_is_locked (s : State) (k : uint256) :
  reachable s → held s + k ≤ balance s →
  (∀ txs, held (run txs s) + k ≤ balance (run txs s)) ∧
  (∀ a v txs,
     held (run (Receive a v :: txs) s) + (k + v)
     ≤ balance (run (Receive a v :: txs) s)).
Proof.
  intros Hr Hk. pose proof (reachable_stored_ok s Hr) as Hs. split.
  - intros txs. by apply surplus_run.
  - intros a v txs. rewrite run_cons. apply surplus_run. split.
    + by apply stored_ok_apply.
    + unfold apply. cbn [exec receive commit balance credit].
      change (held (credit v s)) with (held s). lia.
Qed.

Lemma surplus_is_locked_witness :
  held (run [Receive 5 7; CreateInvoice 5 6 7 "x"; FundInvoice 5 7 1;
             ResolveDispute 9 1 false (Accepts [])] paid_ledger) + (0 + 7)
  ≤ balance (run [Receive 5 7; CreateInvoice 5 6 7 "x"; FundInvoice 5 7 1;
                  ResolveDispute 9 1 false (Accepts [])] paid_ledger).
Proof.
  destruct (surplus_is_locked paid_ledger 0 reachable_paid_ledger) as [_ Hrecv];
    [done|].
  exact (Hrecv 5 7 [CreateInvoice 5 6 7 "x"; FundInvoice 5 7 1;
                    ResolveDispute 9 1 false (Accepts [])]).
Defined.

(** X8 -- Cancelling moves no money, and for good.  A successful
    [cancelInvoice] on a reachable ledger leaves the balance, the ether
    sent out and the escrow holdings as they were; after it, over any
    sequence of transactions, the invoice stays CANCELLED, no ether is
    ever sent for it, and every attempt to fund it reverts. *)
Theorem cancel_is_free_and_final (s s' : State) (a : address) (id : uint256) :
  reachable s → exec (CancelInvoice a id) s = Ok s' →
  balance s' = balance s ∧ transfers s' = transfers s ∧ held s' = held s ∧
  ∀ txs,
    status (invoices_at (run txs s') id) = CANCELLED ∧
    payouts id (run txs s') = [] ∧
    (∀ caller v, ∃ e, reverts_with (FundInvoice caller v id) (run txs s') e).
Proof.
  intros Hr E. pose proof (reachable_stored_ok s Hr) as Hs.
  pose proof (reachable_audit_ok s id Hr) as Ha.
  cbn [exec] in E. apply cancelInvoice_Ok in E as (Hex%client_exists & _ & Hst & ->).
  apply (audit_ok_Some _ _ _ Hex) in Ha. cbn in Ha. rewrite Hst in Ha.
  destruct Ha as [_ Hp].
  split; [done|]. split; [done|]. split.
  { pose proof (held_set_status id CANCELLED s Hex) as Hh.
    unfold held_by in Hh at 1 2. rewrite Hst in Hh.
    cbn [status with_status] in Hh.
    change (held (emit ?e ?s)) with (held s). lia. }
  intros txs.
  set (s1 := emit _ _).
  assert (invoices_at s1 id = with_status CANCELLED (invoices_at s id)) as H1.
  { unfold s1. by rewrite invoices_at_emit, invoices_at_set_status. }
  assert (view id (run txs s1) = view id s1) as Hv.
  { apply frozen_run.
    - apply stored_ok_emit, stored_ok_set_status; [by eexists|done].
    - rewrite H1. by right. }
  pose proof (view_status _ _ _ Hv) as Hi. unfold view in Hv.
  injection Hv as _ _ Hpay.
  split; [by rewrite Hi, H1|]. split.
  - rewrite Hpay. unfold s1. by rewrite payouts_emit, payouts_set_status.
  - intros caller v.
    destruct (terminal_rejects (FundInvoice caller v id) (run txs s1) id) as [e He];
      [done|rewrite Hi, H1; by right|].
    exists e. by apply reverted_unchanged.
Qed.

Lemma cancel_is_free_and_final_witness :
  balance (apply (CancelInvoice 1 0) created_ledger) = balance created_ledger ∧
  payouts 0 (run [FundInvoice 1 100 0] (apply (CancelInvoice 1 0) created_ledger))
  = [].
Proof.
  destruct (cancel_is_free_and_final created_ledger
              (apply (CancelInvoice 1 0) created_ledger) 1 0)
    as (Hb & _ & _ & Hlater); [apply reachable_created_ledger|done|].
  split; [exact Hb|]. by destruct (Hlater [FundInvoice 1 100 0]) as (_ & Hp & _).
Defined.

(** X9 -- The arbiter can always settle a funded invoice.  On a
    reachable ledger, for an invoice that is FUNDED or COMPLETED,
    [resolveDispute] called by the owner succeeds whenever the recipient
    accepts the ether: the balance always covers the amount.  The
    invoice ends PAID (release) or CANCELLED (refund); the one transfer
    ever made for it is of its amount, to its freelancer (release) or
    back to its client (refund); its events gain [DisputeResolved] with
    action "release" or "refund", followed by [PaymentReleased] for a
    release only; and when the recipient calls nothing back the balance
    has gone down by exactly the amount. *)
Theorem arbiter_can_always_resolve (s : State) (id : uint256) (b : bool)
    (cs : list Call) :
  reachable s →
  let i := invoices_at s id in
  status i = FUNDED ∨ status i = COMPLETED →
  ∃ s',
    exec (ResolveDispute (_owner s) id b (Accepts cs)) s = Ok s' ∧
    status (invoices_at s' id) = (if b then PAID else CANCELLED) ∧
    payouts id s' = [mkTransfer id (if b then freelancer i else client i) (amount i)] ∧
    history id s' =
      history id s ++
      DisputeResolved id (if b then "release" else "refund") ::
      (if b then [PaymentReleased id (freelancer i) (amount i)] else []) ∧
    (cs = [] → balance s' = balance s - amount i).
Proof.
  intros Hr i Hst. pose proof (reachable_stored_ok s Hr) as Hs.
  assert (invoices s !! id = Some i) as Hi
    by (apply status_exists; fold i; destruct Hst; congruence).
  pose proof (reachable_clients_ok s Hr id i Hi) as Hex.
  assert (amount i ≤ balance s) as Hle.
  { pose proof (reachable_solvent s Hr) as Hb. unfold solvent in Hb.
    pose proof (held_by_le_held s id i Hi) as Hh. unfold held_by in Hh.
    destruct Hst as [E|E]; rewrite E in Hh; lia. }
  pose proof (reachable_audit_ok s id Hr) as Ha.
  apply (audit_ok_Some _ _ _ Hi) in Ha. cbn in Ha.
  assert (payouts id s = []) as Hp
    by (destruct Hst as [E|E]; rewrite E in Ha; tauto).
  set (s1 := debit id (resolution_payee b i) (amount i) (resolution id b s)).
  assert (view id s1 =
            (Some (with_status (if b then PAID else CANCELLED) i),
             history id s ++ [DisputeResolved id (if b then "release" else "refund")],
             [mkTransfer id (if b then freelancer i else client i) (amount i)]))
    as H1.
  { unfold view, s1, resolution, resolution_payee.
    destruct b; autorewrite with ledger; cbn [event_id];
      rewrite !decide_True, Hp by done; reflexivity. }
  assert (invoices_at s1 id = with_status (if b then PAID else CANCELLED) i) as Hl.
  { unfold s1, resolution. rewrite invoices_at_debit.
    destruct b; by rewrite invoices_at_emit, invoices_at_set_status. }
  assert (view id (run cs s1) = view id s1) as Hv.
  { apply frozen_run.
    - apply stored_ok_debit, stored_ok_resolution; [by eexists|done].
    - rewrite Hl. destruct b; [by left|by right]. }
  rewrite H1 in Hv.
  exists (if b then emit (PaymentReleased id (freelancer i) (amount i)) (run cs s1)
          else run cs s1).
  split.
  { cbn [exec]. apply resolveDispute_Ok. fold i.
    split; [done|]. split; [done|]. split; [done|]. split; [done|].
    exists (run cs s1). split; [apply callee_Accepts|done]. }
  unfold view in Hv. injection Hv as Hl2 Hh2 Hp2.
  assert (status (invoices_at (run cs s1) id) = (if b then PAID else CANCELLED))
    as Hs2 by (rewrite (invoices_at_lookup _ _ _ Hl2); by destruct b).
  destruct b.
  - rewrite invoices_at_emit, payouts_emit, history_emit. cbn [event_id].
    rewrite decide_True, Hh2, <- app_assoc by done.
    split; [done|]. split; [done|]. split; [done|].
    intros ->. cbn. reflexivity.
  - split; [done|]. split; [done|]. split; [done|].
    intros ->. cbn. reflexivity.
Qed.

Lemma arbiter_can_always_resolve_witness :
  ∃ s',
    exec (ResolveDispute 9 0 false (Accepts [])) completed_ledger = Ok s' ∧
    status (invoices_at s' 0) = CANCELLED ∧
    payouts 0 s' = [mkTransfer 0 1 100] ∧
    balance s' = 0.
Proof.
  destruct (arbiter_can_always_resolve completed_ledger 0 false []
              reachable_completed_ledger) as (s' & E & Hst & Hp & _ & Hb);
    [by right|].
  exists s'. split; [exact E|]. split; [exact Hst|]. split; [exact Hp|].
  exact (Hb eq_refl).
Defined.

(** X10 -- Creating an invoice.  [createInvoice] rejects a zero
    freelancer, then a zero amount, then an empty description, each with
    its own message, and succeeds for every other input as long as the
    counter has not reached [type(uint256).max].  On a reachable ledger
    a successful creation uses a slot that was empty, leaves every
    stored invoice, the balance and the ether sent out as they were, and
    the invoice can be read back: for a non-zero caller [getInvoice]
    returns exactly the fields given, with status CREATED, and after any
    later transactions still returns those fields, only the status
    having possibly moved on. *)
Theorem created_invoice_reads_back (s : State) (a f : address) (v : uint256)
    (d : string) :
  reachable s →
  (f = 0 →
     createInvoice a f v d s
     = Reverted (Require "InvoiceEscrow: invalid freelancer address")) ∧
  (f ≠ 0 → v = 0 →
     createInvoice a f v d s
     = Reverted (Require "InvoiceEscrow: amount must be greater than zero")) ∧
  (f ≠ 0 → v ≠ 0 → d = "" →
     createInvoice a f v d s
     = Reverted (Require "InvoiceEscrow: description cannot be empty")) ∧
  (f ≠ 0 → v ≠ 0 → d ≠ "" → _invoiceCounter s ≠ MAX_UINT256 →
     ∃ s',
       createInvoice a f v d s = Ok (s', _invoiceCounter s) ∧
       invoices s !! _invoiceCounter s = None ∧
       (∀ id' i, invoices s !! id' = Some i → invoices s' !! id' = Some i) ∧
       balance s' = balance s ∧ transfers s' = transfers s ∧
       (a ≠ 0 →
          getInvoice (_invoiceCounter s) s'
          = Ok (mkInvoice (_invoiceCounter s) a f v d CREATED) ∧
          ∀ txs, ∃ st,
            getInvoice (_invoiceCounter s) (run txs s')
            = Ok (mkInvoice (_invoiceCounter s) a f v d st))).
Proof.
  intros Hr. pose proof (reachable_stored_ok s Hr) as Hs.
  split; [|split; [|split]].
  - intros ->. reflexivity.
  - intros Hf%N.eqb_neq ->. unfold createInvoice. by rewrite Hf.
  - intros Hf%N.eqb_neq Hv ->. unfold createInvoice. rewrite Hf.
    assert ((0 <? v) = true) as -> by (apply N.ltb_lt; lia). reflexivity.
  - intros Hf Hv Hd Hmax.
    set (id := _invoiceCounter s).
    set (s' := emit (InvoiceCreated id a f v d)
                 (store_invoice id (mkInvoice id a f v d CREATED)
                    (set_counter (id + 1) s))).
    assert (createInvoice a f v d s = Ok (s', id)) as E
      by (apply createInvoice_Ok; repeat split; try done; lia).
    assert (invoices s !! id = None) as Hnone.
    { specialize (Hs id). destruct (invoices s !! id); [unfold id in Hs; lia|done]. }
    exists s'. split; [done|]. split; [done|]. split.
    { intros id' i Hi. cbn. rewrite lookup_insert_ne; [done|]. congruence. }
    split; [done|]. split; [done|].
    intros Ha.
    assert (invoices s' !! id = Some (mkInvoice id a f v d CREATED)) as Hnew
      by (cbn; apply lookup_insert_eq).
    split.
    { unfold getInvoice. rewrite (invoices_at_lookup _ _ _ Hnew).
      apply N.eqb_neq in Ha. unfold require. cbn [client]. by rewrite Ha. }
    intros txs.
    assert (stored_ok s') as Hs'
      by (eapply stored_ok_create; [exact E|done]).
    assert (stored_ok (run txs s') ∧
              keeps id (mkInvoice id a f v d CREATED) (run txs s')) as [_ [st Hk]].
    { apply (run_preserves
               (λ s2, stored_ok s2 ∧ keeps id (mkInvoice id a f v d CREATED) s2)).
      - apply Forall_forall. intros c _. apply keeps_apply.
      - split; [done|]. by exists CREATED. }
    exists st. unfold getInvoice. rewrite (invoices_at_lookup _ _ _ Hk).
    apply N.eqb_neq in Ha. unfold require. cbn [client with_status]. by rewrite Ha.
Qed.

Lemma created_invoice_reads_back_witness :
  ∃ st, getInvoice 0 paid_ledger = Ok (mkInvoice 0 1 2 100 "web work" st).
Proof.
  destruct (created_invoice_reads_back fresh_ledger 1 2 100 "web work"
              reachable_fresh_ledger) as (_ & _ & _ & Hok).
  destruct Hok as (s' & E & _ & _ & _ & _ & Hread); [done..|].
  destruct Hread as [_ Hlater]; [done|].
  injection E as <-.
  exact (Hlater [FundInvoice 1 100 0; MarkInvoiceCompleted 2 0;
                 ReleasePayment 1 0 (Accepts [])]).
Defined.

(** X11 -- Guards of the state machine.  For an existing invoice of a
    reachable ledger called by the right party, each transition reverts
    with its own status message, and changes nothing, whenever the
    invoice is not in the status the transition starts from: funding or
    cancelling anything but a CREATED invoice (whatever ether is sent),
    completing anything but a FUNDED one, releasing anything but a
    COMPLETED one, and resolving a dispute on an invoice that is not
    FUNDED or COMPLETED. *)
Theorem wrong_status_is_rejected (s : State) (id : uint256) :
  reachable s →
  let i := invoices_at s id in
  client i ≠ 0 →
  (status i ≠ CREATED →
     (∀ v, reverts_with (FundInvoice (client i) v id) s
             (Require "InvoiceEscrow: invoice must be in CREATED status")) ∧
     reverts_with (CancelInvoice (client i) id) s
       (Require "InvoiceEscrow: invoice must be in CREATED status")) ∧
  (status i ≠ FUNDED →
     reverts_with (MarkInvoiceCompleted (freelancer i) id) s
       (Require "InvoiceEscrow: invoice must be in FUNDED status")) ∧
  (status i ≠ COMPLETED →
     ∀ k, reverts_with (ReleasePayment (client i) id k) s
            (Require "InvoiceEscrow: invoice must be in COMPLETED status")) ∧
  (status i ≠ FUNDED → status i ≠ COMPLETED →
     ∀ b k, reverts_with (ResolveDispute (_owner s) id b k) s
              (Require "InvoiceEscrow: invoice must be FUNDED or COMPLETED for dispute resolution")).
Proof.
  intros Hr i Hex.
  assert (freelancer i ≠ 0) as Hfl.
  { pose proof (reachable_stored_ok s Hr id) as Hs.
    rewrite (client_exists _ _ Hex) in Hs. tauto. }
  apply N.eqb_neq in Hex, Hfl.
  assert (∀ st, status i ≠ st → InvoiceStatus_eqb (status i) st = false) as Hneq.
  { intros st Hne. destruct (InvoiceStatus_eqb (status i) st) eqn:E; [|done].
    by apply InvoiceStatus_eqb_eq in E. }
  split; [|split; [|split]].
  - intros Hst%Hneq. split; intros; apply reverted_unchanged; cbn [exec];
      [unfold fundInvoice; rewrite invoices_at_credit|unfold cancelInvoice];
      fold i; by rewrite !require_true, require_false
        by (by rewrite ?Hex, ?N.eqb_refl).
  - intros Hst%Hneq. apply reverted_unchanged; cbn [exec].
    unfold markInvoiceCompleted. fold i.
    by rewrite !require_true, require_false by (by rewrite ?Hfl, ?N.eqb_refl).
  - intros Hst%Hneq k. apply reverted_unchanged; cbn [exec].
    unfold releasePayment. fold i.
    by rewrite !require_true, require_false by (by rewrite ?Hex, ?N.eqb_refl).
  - intros Hf%Hneq Hc%Hneq b k. apply reverted_unchanged; cbn [exec].
    unfold resolveDispute, onlyOwner. fold i. rewrite N.eqb_refl.
    by rewrite require_true, require_false by (by rewrite ?Hex, ?Hf, ?Hc).
Qed.

Lemma wrong_status_is_rejected_witness :
  reverts_with (CancelInvoice 1 0) completed_ledger
    (Require "InvoiceEscrow: invoice must be in CREATED status") ∧
  reverts_with (ReleasePayment 1 0 (Accepts [])) created_ledger
    (Require "InvoiceEscrow: invoice must be in COMPLETED status").
Proof.
  destruct (wrong_status_is_rejected completed_ledger 0 reachable_completed_ledger)
    as (Hc & _); [done|].
  destruct (wrong_status_is_rejected created_ledger 0 reachable_created_ledger)
    as (_ & _ & Hr & _); [done|].
  destruct Hc as [_ Hcancel]; [done|].
  split; [exact Hcancel|]. by apply Hr.
Defined.

(** X12 -- Invoices made through the API.  When [POST /api/invoices]
    answers 201, all three fields were given, the trimmed freelancer is
    an address and the amount parses; the invoice was created by the
    server's own wallet, which is therefore its client, whoever sent the
    request; the id in the answer is the id the contract gave the
    invoice, read from the event and never from the fallback
    [getTotalInvoices() - 1], so it does not depend on what else is
    mined meanwhile; and after any further transactions
    [GET /api/invoices/:id] with that id shows this invoice. *)
Theorem api_invoices_belong_to_the_server (this : ContractService)
    (freelancer amount description : option string) (later : list Call)
    (s s' : State) (id : Z) :
  reachable s →
  route_create this freelancer amount description later s = Json 201 (s', id) →
  ∃ f a d wei,
    freelancer = Some f ∧ amount = Some a ∧ description = Some d ∧
    isAddress (ethers this) (trim (ethers this) f) = true ∧
    parseEther (ethers this) a = Some wei ∧
    let to := getAddress (ethers this) (trim (ethers this) f) in
    createInvoice (wallet this) to wei d s = Ok (s', _invoiceCounter s) ∧
    id = Z.of_N (_invoiceCounter s) ∧
    (∀ later',
       route_create this freelancer amount description later' s = Json 201 (s', id)) ∧
    (wallet this ≠ 0 →
     ∀ txs, ∃ st,
       route_get (Z.to_N id) (run txs s')
       = Json 200 (mkApiInvoice (_invoiceCounter s) (wallet this) to wei d
                     (InvoiceStatus_ordinal st),
                   InvoiceStatus_name st)).
Proof.
  intros Hr. unfold route_create.
  destruct freelancer as [f|]; [|discriminate].
  destruct amount as [a|]; [|by destruct f].
  destruct description as [d|]; [|by destruct f, a].
  destruct (falsy (Some f) || falsy (Some a) || falsy (Some d)) eqn:Hf; [discriminate|].
  cbn [default].
  destruct (isAddress _ _) eqn:Haddr; [|discriminate]. cbn [negb].
  set (to := getAddress _ _).
  assert (∀ l, ContractService_createInvoice this to a d None l s
               = match parseEther (ethers this) a with
                 | None => Rejected (Because "Failed to create invoice" InvalidAmount)
                 | Some wei =>
                     match createInvoice (wallet this) to wei d s with
                     | Ok (s1, n) => Resolved (s1, Z.of_N n)
                     | Reverted e =>
                         Rejected (Because "Failed to create invoice" (Revert e))
                     end
                 end) as Hsvc.
  { intros l. unfold ContractService_createInvoice, getContractWithWallet.
    cbn [falsy]. destruct (parseEther _ _) as [wei|];
      cbn [orThrow mbind Promise_bind rethrow]; [|done].
    destruct (createInvoice _ _ _ _ _) as [[s1 n]|e] eqn:E;
      cbn [await mbind Promise_bind rethrow]; [|done].
    apply createInvoice_Ok in E as (_ & _ & _ & _ & -> & ->).
    unfold logs. cbn [events emit store_invoice set_counter].
    by rewrite drop_app_length. }
  rewrite Hsvc. destruct (parseEther _ _) as [wei|] eqn:Hwei; [|discriminate].
  destruct (createInvoice _ _ _ _ _) as [[s1 n]|e] eqn:E; [|discriminate].
  intros [= -> <-].
  pose proof E as E'.
  apply createInvoice_Ok in E' as (_ & _ & _ & _ & -> & Hs').
  exists f, a, d, wei. do 5 (split; [done|]). cbn zeta.
  split; [done|]. split; [done|]. split.
  { intros l. unfold Datatypes.id. by rewrite Hsvc. }
  intros Hw txs. rewrite N2Z.id.
  set (i := mkInvoice (_invoiceCounter s) (wallet this) to wei d CREATED).
  assert (stored_ok s') as Hok
    by (eapply stored_ok_create; [exact E|by apply reachable_stored_ok]).
  destruct (keeps_run txs (_invoiceCounter s) i s' Hok) as [_ [st Hk]].
  { exists CREATED. rewrite Hs'. cbn. apply lookup_insert_eq. }
  exists st. unfold route_get, ContractService_getInvoice, getInvoice.
  rewrite (invoices_at_lookup _ _ _ Hk). cbn [with_status i client].
  apply N.eqb_neq in Hw. unfold require. rewrite Hw. cbn.
  by rewrite statusName_ordinal.
Qed.

Lemma api_invoices_belong_to_the_server_witness :
  ∃ st,
    route_get 0 (run [FundInvoice 9 100 0]
                   (apply (CreateInvoice 9 2 100 "web work") fresh_ledger))
    = Json 200 (mkApiInvoice 0 9 2 100 "web work" (InvoiceStatus_ordinal st),
                InvoiceStatus_name st).
Proof.
  destruct (api_invoices_belong_to_the_server sample_service (Some "0x02")
              (Some "0.0000000000000001") (Some "web work") [] fresh_ledger
              (apply (CreateInvoice 9 2 100 "web work") fresh_ledger) 0%Z
              reachable_fresh_ledger eq_refl)
    as (f & a & d & wei & [= <-] & [= <-] & [= <-] & _ & [= <-] & _ & _ & _ & Hget).
  exact (Hget ltac:(done) [FundInvoice 9 100 0]).
Defined.

(** X13 -- The service funds with the amount of the invoice.
    [ContractService.fundInvoice] reads the invoice and sends the amount
    it read.  Whatever is mined between the read and the funding
    transaction, the transaction is never turned down for a wrong
    amount, because no transaction changes the amount of an invoice.
    The call succeeds exactly when the signer (the wallet of the key, or
    the server's own wallet when no key is given) is the client of an
    existing invoice that is still CREATED when the transaction is
    mined; the ledger then holds the amount more and the invoice is
    FUNDED. *)
Theorem service_sends_the_invoice_amount (this : ContractService) (id : uint256)
    (privateKey : option string) (between : list Call) (s : State) :
  reachable s →
  let mined := run between s in
  let result := ContractService_fundInvoice this id privateKey between s in
  let value := amount (invoices_at s id) in
  (∀ error, result = Rejected error →
     error ≠ Because "Failed to fund invoice"
               (Revert (Require "InvoiceEscrow: sent amount must match invoice amount"))) ∧
  (∀ s', result = Resolved s' ↔
     ∃ signer,
       getContractWithWallet this privateKey = Resolved signer ∧
       id < getTotalInvoices s ∧
       signer = client (invoices_at s id) ∧
       status (invoices_at mined id) = CREATED ∧
       s' = emit (InvoiceFunded id value) (set_status id FUNDED (credit value mined))).
Proof.
  intros Hr mined result value. subst result. unfold ContractService_fundInvoice.
  destruct (getContractWithWallet this privateKey) as [signer|e] eqn:Hsig.
  2:{ cbn. split.
      - intros error [= <-]. unfold getContractWithWallet in Hsig.
        destruct (falsy privateKey); [discriminate|].
        destruct (Wallet _ _); [discriminate|]. injection Hsig as <-. discriminate.
      - intros s'. split; [discriminate|]. by intros (? & ? & _). }
  cbn [mbind Promise_bind]. unfold getTotalInvoices.
  destruct (N.lt_ge_cases id (_invoiceCounter s)) as [Hlt|Hge].
  - destruct (getInvoice_below s id Hr Hlt) as (-> & _ & _). cbn [await mbind Promise_bind].
    fold mined. unfold mined. rewrite (fund_later signer id between s Hr Hlt).
    fold mined. fold value.
    destruct (N.eqb_spec (client (invoices_at s id)) signer) as [Hc|Hc].
    + destruct (InvoiceStatus_eqb _ _) eqn:Hst; cbn.
      * apply InvoiceStatus_eqb_eq in Hst. split; [discriminate|].
        intros s'. split.
        -- intros [= <-]. by exists signer.
        -- by intros (? & _ & _ & _ & _ & ->).
      * split; [intros error [= <-]; discriminate|].
        intros s'. split; [discriminate|].
        intros (? & _ & _ & _ & Hst' & _).
        apply InvoiceStatus_eqb_eq in Hst'. congruence.
    + cbn. split; [intros error [= <-]; discriminate|].
      intros s'. split; [discriminate|].
      intros (? & [= <-] & _ & -> & _). done.
  - destruct (getInvoice_above s id Hr Hge) as (-> & _). cbn.
    split; [intros error [= <-]; discriminate|].
    intros s'. split; [discriminate|]. intros (? & _ & ? & _). lia.
Qed.

Lemma service_sends_the_invoice_amount_witness :
  ContractService_fundInvoice sample_service 0 (Some "key of 1")
    [CreateInvoice 3 4 5 "logo"] created_ledger
  = Resolved (emit (InvoiceFunded 0 100)
                (set_status 0 FUNDED
                   (credit 100 (run [CreateInvoice 3 4 5 "logo"] created_ledger)))).
Proof.
  apply (service_sends_the_invoice_amount sample_service 0 (Some "key of 1")
           [CreateInvoice 3 4 5 "logo"] created_ledger reachable_created_ledger).
  exists 1. by repeat split.
Defined.






(** X17 -- Requests that come with the key of an existing invoice's
    party.  For [complete], [release] and [cancel], a well-formed key is
    checked against the freelancer, respectively the client, of the
    invoice before anything is sent, and a key of somebody else is
    refused with a 400.  Past the check the contract's existence and
    caller errors cannot come up, whatever is mined before the
    transaction: the answer is 200 when the invoice has the status the
    transition starts from, and a 500 with the contract's status error
    otherwise.  A release can also fail because the freelancer's address
    does not take the ether; it never fails for lack of balance. *)
Theorem keyed_requests_pass_authorization (this : ContractService) (id : uint256)
    (key : string) (signer : address) (before : list Call) (s : State) :
  reachable s → key ≠ "" →
  isAddress (ethers this) key = false →
  Wallet (ethers this) key = Some signer →
  id < getTotalInvoices s →
  let invoice := invoices_at s id in
  let mined := run before s in
  let st := status (invoices_at mined id) in
  route_complete this id (Some key) before s
  = (if negb (signer =? freelancer invoice) then
       Refused "Private key does not match the freelancer address" None
     else if InvoiceStatus_eqb st FUNDED then
       Json 200 (emit (InvoiceCompleted id) (set_status id COMPLETED mined))
     else
       ServerError
         (Because "Failed to mark invoice as completed"
            (Revert (Require "InvoiceEscrow: invoice must be in FUNDED status")))) ∧
  route_cancel this id (Some key) before s
  = (if negb (signer =? client invoice) then
       Refused "Private key does not match the client address" None
     else if InvoiceStatus_eqb st CREATED then
       Json 200 (emit (InvoiceCancelled id) (set_status id CANCELLED mined))
     else
       ServerError
         (Because "Failed to cancel invoice"
            (Revert (Require "InvoiceEscrow: invoice must be in CREATED status")))) ∧
  ∀ payee,
    route_release this id (Some key) payee before s
    = (if negb (signer =? client invoice) then
         Refused "Private key does not match the client address" None
       else if InvoiceStatus_eqb st COMPLETED then
         match payee with
         | Rejects =>
             ServerError
               (Because "Failed to release payment"
                  (Revert (Require "InvoiceEscrow: payment transfer failed")))
         | Accepts cs =>
             Json 200
               (emit (PaymentReleased id (freelancer invoice) (amount invoice))
                  (run cs (debit id (freelancer invoice) (amount invoice)
                             (set_status id PAID mined))))
         end
       else
         ServerError
           (Because "Failed to release payment"
              (Revert (Require "InvoiceEscrow: invoice must be in COMPLETED status")))).
Proof.
  intros Hr Hkey Haddr Hw Hlt invoice mined st. unfold getTotalInvoices in Hlt.
  unfold route_complete, route_cancel, route_release.
  rewrite !(checkPrivateKey_keyed this _ _ id key signer s Hr Hkey Haddr Hw Hlt).
  cbn [api_client api_freelancer]. fold invoice.
  unfold ContractService_markInvoiceCompleted, ContractService_cancelInvoice,
    ContractService_releasePayment.
  rewrite (signer_of_key this key signer Hkey Hw). cbn [mbind Promise_bind].
  rewrite (complete_later signer id before s Hr Hlt),
    (cancel_later signer id before s Hr Hlt).
  fold invoice mined st.
  split; [|split].
  - destruct (N.eqb_spec signer (freelancer invoice)) as [->|]; [|done].
    rewrite N.eqb_refl. cbn [negb]. by destruct (InvoiceStatus_eqb _ _).
  - destruct (N.eqb_spec signer (client invoice)) as [->|]; [|done].
    rewrite N.eqb_refl. cbn [negb]. by destruct (InvoiceStatus_eqb _ _).
  - intros payee. unfold mined.
    rewrite (release_later signer id payee before s Hr Hlt).
    fold invoice mined st.
    destruct (N.eqb_spec signer (client invoice)) as [->|]; [|done].
    rewrite N.eqb_refl. cbn [negb].
    destruct (InvoiceStatus_eqb _ _); [|done]. by destruct payee.
Qed.

Lemma keyed_requests_pass_authorization_witness :
  route_cancel sample_service 0 (Some "key of 1") [FundInvoice 1 100 0] created_ledger
  = ServerError
      (Because "Failed to cancel invoice"
         (Revert (Require "InvoiceEscrow: invoice must be in CREATED status"))) ∧
  route_complete sample_service 0 (Some "key of 1") [] created_ledger
  = Refused "Private key does not match the freelancer address" None.
Proof.
  pose proof (keyed_requests_pass_authorization sample_service 0 "key of 1" 1
                [FundInvoice 1 100 0] created_ledger reachable_created_ledger
                ltac:(done) eq_refl eq_refl ltac:(done)) as (_ & Hcancel & _).
  pose proof (keyed_requests_pass_authorization sample_service 0 "key of 1" 1
                [] created_ledger reachable_created_ledger
                ltac:(done) eq_refl eq_refl ltac:(done)) as (Hcomplete & _).
  split; [exact Hcancel|exact Hcomplete].
Defined.


